(** * A shallow embedding of the [tokenizer] of [mod.ts]

    The lexer is a single pass over the UTF-16 code units of the input.  Its
    mutable locals ([line], [pos], the pending [token] and the output array
    [tokens]) are threaded explicitly through a record; the body of the [for]
    loop is a function of that record and the current code unit. *)

From Stdlib Require Import String Ascii List NArith Bool Arith Lia.
Import ListNotations.

Set Implicit Arguments.

(** ** JavaScript strings *)

(** A JavaScript string is a sequence of UTF-16 code units; [text[i]] is the
    one-unit string at index [i], represented here by the unit itself. *)
Definition char := N.
Definition jsstring := list char.

(** ASCII literals, for writing inputs. *)
Definition str (s : string) : jsstring :=
  map N_of_ascii (list_ascii_of_string s).

(** [s.charCodeAt(i)] (the out-of-range [NaN] is never requested). *)
Definition charCodeAt (s : jsstring) (i : nat) : N := nth i s 0%N.

(** [s.startsWith(p)]. *)
Fixpoint startsWith (s p : jsstring) : bool :=
  match p, s with
  | [], _ => true
  | _ :: _, [] => false
  | c :: p', d :: s' => (d =? c)%N && startsWith s' p'
  end.

(** [s.endsWith(p)]. *)
Definition endsWith (s p : jsstring) : bool := startsWith (rev s) (rev p).

(** [s.includes(p)]: [p] occurs somewhere in [s]. *)
Fixpoint includes (s p : jsstring) : bool :=
  startsWith s p ||
  match s with
  | [] => false
  | _ :: s' => includes s' p
  end.

(** [a === b] on strings. *)
Fixpoint jsstring_eqb (a b : jsstring) : bool :=
  match a, b with
  | [], [] => true
  | x :: a', y :: b' => (x =? y)%N && jsstring_eqb a' b'
  | _, _ => false
  end.

Definition newline : char := 10%N.    (* line feed *)
Definition backslash : char := 92%N.  (* reverse solidus *)
Definition dquote : char := 34%N.     (* quotation mark *)
Definition underscore : char := 95%N. (* low line *)
Definition dot : char := 46%N.        (* full stop *)

(** ** Default character classes *)

Definition minLetter1 : N := charCodeAt (str "a") 0.
Definition maxLetter1 : N := charCodeAt (str "z") 0.
Definition minLetter2 : N := charCodeAt (str "A") 0.
Definition maxLetter2 : N := charCodeAt (str "Z") 0.
Definition minNumber : N := charCodeAt (str "0") 0.
Definition maxNumber : N := charCodeAt (str "9") 0.

Definition _isAlpha (c : char) : bool :=
  let charCode := c in
  ((minLetter1 <=? charCode)%N && (charCode <=? maxLetter1)%N)
  || ((minLetter2 <=? charCode)%N && (charCode <=? maxLetter2)%N).

Definition _isNumeric (c : char) : bool :=
  let charCode := c in
  (minNumber <=? charCode)%N && (charCode <=? maxNumber)%N.

(** The literal of [_isSeparator] holds, between [?] and [:], the two code
    units U+00C2 and U+00BF. *)
Definition _isSeparator (c : char) : bool :=
  includes (str "[](){}.#?" ++ [194%N; 191%N] ++ str ":;, ") [c].

(** Space, tab, carriage return, line feed. *)
Definition _isSpace (c : char) : bool :=
  includes [32%N; 9%N; 13%N; 10%N] [c].

Definition _isOperator (c : char) : bool :=
  includes (str "+-*/^%&=<>") [c].

(** ** Tokens *)

Inductive TokenType : Set :=
| Unknown
| String
| Number
| Identifier
| Operator
| Separator
| Space
| Instruction
| EOF.

Definition TokenType_eqb (a b : TokenType) : bool :=
  match a, b with
  | Unknown, Unknown | String, String | Number, Number
  | Identifier, Identifier | Operator, Operator | Separator, Separator
  | Space, Space | Instruction, Instruction | EOF, EOF => true
  | _, _ => false
  end.

(** [types.includes(t)] on an array of token types; [t] may be [undefined]. *)
Definition includesType (types : list TokenType) (t : option TokenType) : bool :=
  match t with
  | Some ty => existsb (TokenType_eqb ty) types
  | None => false
  end.

(** [types.find((type) => type !== TokenType.Unknown)]: [None] is the
    [undefined] that [find] returns when nothing matches. *)
Definition findKnown (types : list TokenType) : option TokenType :=
  find (fun ty => negb (TokenType_eqb ty Unknown)) types.

Section Lexer.

(** The hash of [@online/get-string-uid] is an external collaborator: it is
    taken as a parameter, together with the numbers it produces. *)
Variable number : Type.
Variable zero : number.
Variable getStringUid : jsstring -> number.

(** [IToken].  The [type] field is written from [types.find(...)!], so it can
    hold [undefined], which [None] stands for. *)
Record IToken : Type := mkToken {
  uid : number;
  type : option TokenType;
  text : jsstring;
  line : nat;
  pos : nat
}.

Definition set_type (ty : option TokenType) (t : IToken) : IToken :=
  mkToken (uid t) ty (text t) (line t) (pos t).
Definition set_text (s : jsstring) (t : IToken) : IToken :=
  mkToken (uid t) (type t) s (line t) (pos t).
Definition set_uid (u : number) (t : IToken) : IToken :=
  mkToken u (type t) (text t) (line t) (pos t).

(** [token.type === ty]. *)
Definition type_is (t : IToken) (ty : TokenType) : bool :=
  match type t with
  | Some ty' => TokenType_eqb ty' ty
  | None => false
  end.

Definition CharacterValidator := char -> nat -> nat -> bool.
Definition TokenValidator := jsstring -> nat -> nat -> bool.

Record ITokenizerValidators : Type := mkValidators {
  isCharacter : CharacterValidator;
  isNumber : CharacterValidator;
  isSpace : CharacterValidator;
  isOperator : CharacterValidator;
  isNumberSeparator : CharacterValidator;
  isSeparator : CharacterValidator;
  isString : CharacterValidator;
  isInstruction : TokenValidator
}.

(** [Partial<ITokenizerValidators>]: every member may be absent. *)
Record PartialValidators : Type := mkPartialValidators {
  isCharacter_opt : option CharacterValidator;
  isNumber_opt : option CharacterValidator;
  isSpace_opt : option CharacterValidator;
  isOperator_opt : option CharacterValidator;
  isNumberSeparator_opt : option CharacterValidator;
  isSeparator_opt : option CharacterValidator;
  isString_opt : option CharacterValidator;
  isInstruction_opt : option TokenValidator
}.

(** [Partial<ITokenizerOptions>]. *)
Record ITokenizerOptions : Type := mkOptions {
  validators : option PartialValidators;
  insertEof : option bool
}.

Definition noValidators : PartialValidators :=
  mkPartialValidators None None None None None None None None.

(** [options?.validators?.m ?? d]. *)
Definition validatorOr (A : Type) (options : option ITokenizerOptions)
    (m : PartialValidators -> option A) (d : A) : A :=
  match options with
  | Some o =>
      match validators o with
      | Some v => match m v with Some f => f | None => d end
      | None => d
      end
  | None => d
  end.

(** The eight [const is... = options?.validators?.... ?? ...] bindings. *)
Definition resolve (options : option ITokenizerOptions) : ITokenizerValidators :=
  {| isSpace := validatorOr options isSpace_opt (fun c _ _ => _isSpace c);
     isSeparator := validatorOr options isSeparator_opt (fun c _ _ => _isSeparator c);
     isNumber := validatorOr options isNumber_opt (fun c _ _ => _isNumeric c);
     isCharacter := validatorOr options isCharacter_opt (fun c _ _ => _isAlpha c);
     isOperator := validatorOr options isOperator_opt (fun c _ _ => _isOperator c);
     isString := validatorOr options isString_opt (fun c _ _ => (c =? dquote)%N);
     isInstruction := validatorOr options isInstruction_opt (fun _ _ _ => false);
     isNumberSeparator :=
       validatorOr options isNumberSeparator_opt (fun c _ _ => (c =? dot)%N) |}.

(** ** The scanner's locals *)

Record Scan : Type := mkScan {
  cur_line : nat;            (* let line *)
  cur_pos : nat;             (* let pos *)
  token : IToken;            (* let token *)
  tokens : list IToken       (* const tokens *)
}.

Definition with_token (t : IToken) (st : Scan) : Scan :=
  mkScan (cur_line st) (cur_pos st) t (tokens st).

Definition freshToken (l p : nat) : IToken :=
  mkToken zero (Some Unknown) [] l p.

Definition initial : Scan := mkScan 1 1 (freshToken 1 1) [].

Definition resetToken (st : Scan) : Scan :=
  with_token (freshToken (cur_line st) (cur_pos st)) st.

(** The locals once [c] has been appended to a pending token that is, or
    becomes, of type [ty]. *)
Definition extend (ty : TokenType) (c : char) (st : Scan) : Scan :=
  with_token
    (mkToken (getStringUid (text (token st) ++ [c])) (Some ty)
       (text (token st) ++ [c]) (line (token st)) (pos (token st))) st.

Section Policy.

Variable v : ITokenizerValidators.

(** The first two statements of [pushToken]: the pending token as it is
    when it is pushed. *)
Definition finalized (st : Scan) : IToken :=
  let t := token st in
  let t :=
    if type_is t Identifier && isInstruction v (text t) (cur_line st) (cur_pos st)
    then set_type (Some Instruction) t
    else t in
  set_uid (getStringUid (text t)) t.

Definition pushToken (st : Scan) : Scan :=
  let t := finalized st in
  resetToken (mkScan (cur_line st) (cur_pos st) t (tokens st ++ [t])).

Definition pushIfNotTypes (types : list TokenType) (st : Scan) : Scan :=
  let st := if includesType types (type (token st)) then st else pushToken st in
  with_token (set_type (findKnown types) (token st)) st.

(** The [true] that [concatIfTypes] returns is dropped by every caller; only
    the effect on the locals is kept. *)
Definition concatIfTypes (types : list TokenType) (c : char) (st : Scan) : Scan :=
  if includesType types (type (token st)) then
    let t := set_text (text (token st) ++ [c]) (token st) in
    let t := set_uid (getStringUid (text t)) t in
    let t := set_type (findKnown types) t in
    with_token t st
  else st.

(** How the [switch] statement of the loop body is left. *)
Inductive completion : Set := Break | Continue.

(** [if (char === "\n") { line++; pos = 1; }] *)
Definition countLine (c : char) (st : Scan) : Scan :=
  if (c =? newline)%N
  then mkScan (S (cur_line st)) 1 (token st) (tokens st)
  else st.

(** The [switch (true)] statement: the first [case] whose expression is
    [true] is taken. *)
Definition classify (c : char) (st : Scan) : completion * Scan :=
  let l := cur_line st in
  let p := cur_pos st in
  if isString v c l p then
    if endsWith (text (token st)) [backslash] then
      (Continue, with_token (set_text (text (token st) ++ [c]) (token st)) st)
    else
      let st := pushIfNotTypes [Unknown; String] st in
      let st := concatIfTypes [String; Unknown] c st in
      let st :=
        if type_is (token st) String
           && (1 <? length (text (token st)))
           && startsWith (text (token st)) [c]
           && endsWith (text (token st)) [c]
        then pushToken st
        else st in
      (Break, st)
  else if type_is (token st) String then
    (Break, concatIfTypes [String] c st)
  else if isSpace v c l p then
    (Break, concatIfTypes [Space] c (pushIfNotTypes [Unknown; Space] st))
  else if isSeparator v c l p then
    if isNumberSeparator v c l p && type_is (token st) Number then
      (Break, concatIfTypes [Number] c (pushIfNotTypes [Unknown; Number] st))
    else
      (Break, concatIfTypes [Separator] c (pushIfNotTypes [Unknown; Separator] st))
  else if isNumber v c l p then
    let ty := if type_is (token st) Identifier then Identifier else Number in
    (Break, concatIfTypes [ty] c (pushIfNotTypes [Unknown; ty] st))
  else if isCharacter v c l p then
    let ty := if type_is (token st) Number then Number else Identifier in
    (Break, concatIfTypes [ty] c (pushIfNotTypes [Unknown; ty] st))
  else if isOperator v c l p then
    (Break, concatIfTypes [Operator] c (pushIfNotTypes [Unknown; Operator] st))
  else if isNumberSeparator v c l p && type_is (token st) Number then
    (Break, concatIfTypes [Number] c (pushIfNotTypes [Unknown; Number] st))
  else
    (Break, concatIfTypes [Identifier] c (pushIfNotTypes [Unknown; Identifier] st)).

(** [pos++], the last statement of the loop body. *)
Definition advance (st : Scan) : Scan :=
  mkScan (cur_line st) (S (cur_pos st)) (token st) (tokens st).

(** One iteration of the [for] loop on the code unit [c].  The [continue] of
    the escaped-delimiter branch goes straight to [i++]: it skips [pos++]. *)
Definition iteration (st : Scan) (c : char) : Scan :=
  match classify c (countLine c st) with
  | (Break, st') => advance st'
  | (Continue, st') => st'
  end.

(** The locals after the loop has run over [input], started in [st]. *)
Definition scanFrom (st : Scan) (input : jsstring) : Scan :=
  fold_left iteration input st.

Definition scan (input : jsstring) : Scan := scanFrom initial input.

Definition eofToken : IToken := mkToken zero (Some EOF) [] 0 0.

(** What [tokenizer] does once the validators are bound. *)
Definition run (eof : bool) (input : jsstring) : list IToken :=
  let st := pushIfNotTypes [Unknown] (scan input) in
  if eof then tokens st ++ [eofToken] else tokens st.

(** The iteration on [c] appends it to the pending token, which is or
    becomes of type [ty], and pushes nothing. *)
Definition appends (ty : TokenType) (c : char) (st : Scan) : Prop :=
  iteration st c = advance (extend ty c (countLine c st)).

(** *** The shapes an iteration can take

    [Outcome st c k st'] lists the four things the [switch] can do to the
    locals [st] on the code unit [c]: keep an escaped delimiter, extend the
    pending token, push it and start a new one, or extend and push a string
    that is now closed. *)

Definition accumulates (ty : TokenType) : bool :=
  match ty with
  | Unknown | Instruction | EOF => false
  | _ => true
  end.

Inductive Outcome (st : Scan) (c : char) : completion -> Scan -> Prop :=
| O_swallow :
    text (token st) <> [] ->
    Outcome st c Continue
      (with_token (set_text (text (token st) ++ [c]) (token st)) st)
| O_extend (ty : TokenType) :
    accumulates ty = true ->
    type (token st) = Some Unknown \/ type (token st) = Some ty ->
    Outcome st c Break
      (with_token
         (mkToken (getStringUid (text (token st) ++ [c])) (Some ty)
            (text (token st) ++ [c]) (line (token st)) (pos (token st))) st)
| O_flush (ty : TokenType) :
    accumulates ty = true ->
    type (token st) <> Some Unknown ->
    Outcome st c Break
      (mkScan (cur_line st) (cur_pos st)
         (mkToken (getStringUid [c]) (Some ty) [c] (cur_line st) (cur_pos st))
         (tokens st ++ [finalized st]))
| O_close :
    type (token st) = Some Unknown \/ type (token st) = Some String ->
    text (token st) <> [] ->
    Outcome st c Break
      (mkScan (cur_line st) (cur_pos st)
         (freshToken (cur_line st) (cur_pos st))
         (tokens st ++
            [mkToken (getStringUid (text (token st) ++ [c])) (Some String)
               (text (token st) ++ [c]) (line (token st)) (pos (token st))])).

(** What an emitted token looks like. *)
Definition Emitted (t : IToken) : Prop :=
  exists ty,
    type t = Some ty /\ ty <> Unknown /\ ty <> EOF /\ text t <> [] /\
    uid t = getStringUid (text t) /\
    (ty = Instruction -> exists l p, isInstruction v (text t) l p = true) /\
    (ty = Identifier -> exists l p, isInstruction v (text t) l p = false).

(** The loop invariant: the pending token has a type the scanner
    accumulates, it is [Unknown] exactly when it is empty, and everything
    pushed so far is well formed. *)
Record Inv (st : Scan) : Prop := mkInv {
  inv_type :
    exists ty, type (token st) = Some ty /\ ty <> Instruction /\ ty <> EOF /\
               (ty = Unknown <-> text (token st) = []);
  inv_tokens : Forall Emitted (tokens st)
}.

(** The input read so far, as the locals hold it. *)
Definition consumed (st : Scan) : jsstring :=
  concat (map text (tokens st)) ++ text (token st).

(** *** What each branch asks of the code unit

    The [case] expressions are tried in order, so a branch is taken only when
    those before it are false.  [opens ty c l p] is what has been tested when
    [c] starts a pending token of type [ty], and [fits ty c l p] what has
    been tested when [c] continues one.  A [String] is opened by a delimiter
    and then takes everything. *)

Definition opens (ty : TokenType) (c : char) (l p : nat) : bool :=
  match ty with
  | String => isString v c l p
  | Space => negb (isString v c l p) && isSpace v c l p
  | Separator =>
      negb (isString v c l p) && negb (isSpace v c l p)
      && isSeparator v c l p
  | Number =>
      negb (isString v c l p) && negb (isSpace v c l p)
      && negb (isSeparator v c l p) && isNumber v c l p
  | Identifier =>
      negb (isString v c l p) && negb (isSpace v c l p)
      && negb (isSeparator v c l p) && negb (isNumber v c l p)
      && (isCharacter v c l p || negb (isOperator v c l p))
  | Operator =>
      negb (isString v c l p) && negb (isSpace v c l p)
      && negb (isSeparator v c l p) && negb (isNumber v c l p)
      && negb (isCharacter v c l p) && isOperator v c l p
  | _ => true
  end.

Definition fits (ty : TokenType) (c : char) (l p : nat) : bool :=
  match ty with
  | String => true
  | Number =>
      negb (isString v c l p) && negb (isSpace v c l p)
      && ((isSeparator v c l p && isNumberSeparator v c l p)
          || (negb (isSeparator v c l p)
              && (isNumber v c l p || isCharacter v c l p
                  || (negb (isOperator v c l p)
                      && isNumberSeparator v c l p))))
  | Identifier =>
      negb (isString v c l p) && negb (isSpace v c l p)
      && negb (isSeparator v c l p)
      && (isNumber v c l p || isCharacter v c l p
          || negb (isOperator v c l p))
  | _ => opens ty c l p
  end.

(** [Transition st c st'] refines [Outcome] with what the [switch] has
    tested on the way to each shape. *)
Inductive Transition (st : Scan) (c : char) : Scan -> Prop :=
| T_swallow :
    isString v c (cur_line st) (cur_pos st) = true ->
    endsWith (text (token st)) [backslash] = true ->
    Transition st c
      (with_token (set_text (text (token st) ++ [c]) (token st)) st)
| T_extend (ty : TokenType) :
    accumulates ty = true ->
    type (token st) = Some Unknown \/ type (token st) = Some ty ->
    fits ty c (cur_line st) (cur_pos st) = true ->
    (type (token st) = Some Unknown ->
     opens ty c (cur_line st) (cur_pos st) = true) ->
    Transition st c
      (with_token
         (mkToken (getStringUid (text (token st) ++ [c])) (Some ty)
            (text (token st) ++ [c]) (line (token st)) (pos (token st))) st)
| T_flush (ty : TokenType) :
    accumulates ty = true ->
    type (token st) <> Some Unknown ->
    type (token st) <> Some String ->
    type (token st) <> Some ty ->
    opens ty c (cur_line st) (cur_pos st) = true ->
    Transition st c
      (mkScan (cur_line st) (cur_pos st)
         (mkToken (getStringUid [c]) (Some ty) [c] (cur_line st) (cur_pos st))
         (tokens st ++ [finalized st]))
| T_close :
    type (token st) = Some Unknown \/ type (token st) = Some String ->
    text (token st) <> [] ->
    isString v c (cur_line st) (cur_pos st) = true ->
    startsWith (text (token st) ++ [c]) [c] = true ->
    Transition st c
      (mkScan (cur_line st) (cur_pos st)
         (freshToken (cur_line st) (cur_pos st))
         (tokens st ++
            [mkToken (getStringUid (text (token st) ++ [c])) (Some String)
               (text (token st) ++ [c]) (line (token st)) (pos (token st))])).

(** The type a returned token had while it was pending: an [Instruction]
    was an [Identifier]. *)
Definition pendingType (ty : TokenType) : TokenType :=
  match ty with
  | Instruction => Identifier
  | _ => ty
  end.

(** [Built ty s]: the text [s] can be put together as a pending token of
    type [ty]: a code unit that opens the type, then code units that fit it
    or delimiters kept because the text before them ends in a backslash. *)
Inductive Built (ty : TokenType) : jsstring -> Prop :=
| B_open (c : char) :
    (exists l p, opens ty c l p = true) -> Built ty [c]
| B_more (s : jsstring) (c : char) :
    Built ty s -> (exists l p, fits ty c l p = true) -> Built ty (s ++ [c])
| B_escaped (s : jsstring) (c : char) :
    Built ty s -> endsWith s [backslash] = true ->
    (exists l p, isString v c l p = true) -> Built ty (s ++ [c]).

(** [guarded prev r]: every code unit of [r] is no delimiter, or comes
    right after a backslash ([prev] is the code unit in front of [r]). *)
Fixpoint guarded (prev : char) (r : jsstring) : Prop :=
  match r with
  | [] => True
  | c :: r' =>
      ((forall l p, isString v c l p = false) \/ prev = backslash)
      /\ guarded c r'
  end.

(** A string literal that has been closed: the same delimiter at both ends. *)
Definition Closed (s : jsstring) : Prop :=
  exists q body,
    s = q :: body ++ [q] /\ exists l p, isString v q l p = true.

End Policy.

(** [options?.insertEof] in a condition: absent counts as false. *)
Definition wantsEof (options : option ITokenizerOptions) : bool :=
  match options with
  | Some o => match insertEof o with Some b => b | None => false end
  | None => false
  end.

Definition tokenizer (input : jsstring) (options : option ITokenizerOptions)
  : list IToken :=
  run (resolve options) (wantsEof options) input.

(** The text of the emitted tokens, EOF left out, glued together. *)
Definition emittedText (toks : list IToken) : jsstring :=
  concat (map text (filter (fun t => negb (type_is t EOF)) toks)).

End Lexer.

Arguments uid {number} _.
Arguments type {number} _.
Arguments text {number} _.
Arguments line {number} _.
Arguments pos {number} _.

(** ** Inputs and policies of the test suite and of the README *)

(** [s] holds [c] somewhere strictly between its first and its last unit:
    a token with such a text runs across an occurrence of [c]. *)
Definition spansAcross (c : char) (s : jsstring) : bool :=
  existsb (N.eqb c) (removelast (tl s)).

(** The type, text, line and column of a token, and its type and text. *)
Definition summary (number : Type) (t : IToken number) :=
  (type t, text t, line t, pos t).
Definition shape (number : Type) (t : IToken number) := (type t, text t).

Arguments summary {number} _.
Arguments shape {number} _.

(** How many line feeds [s] holds. *)
Definition newlines (s : jsstring) : nat := count_occ N.eq_dec s newline.

(** No token of [toks] runs across an occurrence of [c]. *)
Definition splitsAtEvery (number : Type) (c : char) (toks : list (IToken number))
  : bool :=
  forallb (fun t => negb (spansAcross c (text t))) toks.

(** What the default policy lets into a token of type [ty]. *)
Definition defaultUnit (ty : TokenType) (c : char) : bool :=
  match ty with
  | Space => _isSpace c
  | Separator => _isSeparator c && negb (_isSpace c)
  | Operator => _isOperator c
  | Number => _isNumeric c || _isAlpha c || (c =? dot)%N
  | Identifier | Instruction =>
      negb (_isSpace c || _isSeparator c || _isOperator c)
  | _ => true
  end.

(** What the default policy lets a token of type [ty] start with. *)
Definition defaultHead (ty : TokenType) (c : char) : bool :=
  match ty with
  | String => (c =? dquote)%N
  | Number => _isNumeric c
  | Identifier | Instruction => negb (_isNumeric c)
  | _ => true
  end.

Definition defaultContent (ty : TokenType) (s : jsstring) : bool :=
  match s with
  | [] => false
  | c :: _ => defaultHead ty c && forallb (defaultUnit ty) s
  end.

(** The returned tokens, the EOF token left out. *)
Definition withoutEof (number : Type) (toks : list (IToken number))
  : list (IToken number) :=
  filter (fun t => negb (type_is t EOF)) toks.

(** The type of a token as it was while pending. *)
Definition baseType (number : Type) (t : IToken number) : option TokenType :=
  option_map pendingType (type t).

Arguments baseType {number} _.

(** No two neighbours of [l] were pending with the same type, unless the
    first of the two is a [String]. *)
Fixpoint alternates (number : Type) (l : list (IToken number)) : Prop :=
  match l with
  | t1 :: (t2 :: _) as rest =>
      (baseType t1 = baseType t2 -> type t1 = Some String)
      /\ alternates rest
  | _ => True
  end.

(** Where a token can say it is, when [before] is the input in front of it:
    on the line of its first code unit, or one line above when that unit is
    a line feed; at a column from 1 to one more than the length of
    [before]. *)
Definition placed (number : Type) (before : jsstring) (t : IToken number) : Prop :=
  1 + newlines before <= line t
  /\ line t <= 1 + newlines (before ++ firstn 1 (text t))
  /\ 1 <= pos t
  /\ pos t <= 1 + length before.

(** [placed] along a token sequence. *)
Fixpoint allPlaced (number : Type) (before : jsstring)
    (l : list (IToken number)) : Prop :=
  match l with
  | [] => True
  | t :: rest => placed before t /\ allPlaced (before ++ text t) rest
  end.

(** The first of the tokens [toks], or the pending token [tok] when there
    is none yet, is at line 1, column 1. *)
Definition firstAtOrigin (number : Type) (tok : IToken number)
    (toks : list (IToken number)) : Prop :=
  match toks with
  | [] => line tok = 1 /\ pos tok = 1
  | t :: _ => line t = 1 /\ pos t = 1
  end.

(** A stand-in for the external hash where a statement is run on a concrete
    input; nothing proved below depends on which function it is. *)
Definition sampleUid (s : jsstring) : N := fold_left N.add s 0%N.

(** The validator of the test on mixed decimal and underscore separators. *)
Definition underscoreOrDot : CharacterValidator :=
  fun c _ _ => (c =? underscore)%N || (c =? dot)%N.

(** [{ validators: { isNumberSeparator: f } }]. *)
Definition numberSeparatorOnly (f : CharacterValidator)
  : option ITokenizerOptions :=
  Some (mkOptions
    (Some (mkPartialValidators None None None None (Some f) None None None))
    None).

(** The README's [customValidators], with [insertEof: true]. *)
Definition readmeOptions : option ITokenizerOptions :=
  Some (mkOptions
    (Some (mkPartialValidators None None None
       (Some (fun c _ _ => includes (str "+-*/") [c]))
       None None
       (Some (fun c _ _ => existsb (jsstring_eqb [c]) [[39%N]; [dquote]; [96%N]]))
       (Some (fun tok _ _ => startsWith tok (str "@")))))
    (Some true)).

(** [let x = @print("Hello")] *)
Definition readmeText : jsstring :=
  str "let x = @print(" ++ [dquote] ++ str "Hello" ++ [dquote] ++ str ")".

(** * Properties *)

Section Facts.

Variable number : Type.
Variable zero : number.
Variable getStringUid : jsstring -> number.

Ltac case_if :=
  match goal with
  | |- context [if ?b then _ else _] => destruct b eqn:?
  end.

Lemma endsWith_nonempty (s : jsstring) (c : char) :
  endsWith s [c] = true -> s <> [].
Proof. intros H ->. discriminate H. Qed.

Lemma close_nonempty (s : jsstring) (c : char) :
  (1 <? length (s ++ [c])) = true -> s <> [].
Proof. intros H ->. discriminate H. Qed.

Lemma TokenType_eqb_eq (a b : TokenType) : TokenType_eqb a b = true <-> a = b.
Proof. destruct a, b; simpl; split; congruence. Qed.

Section PolicyFacts.

Variable v : ITokenizerValidators.

Ltac reduce_locals :=
  cbv [pushIfNotTypes concatIfTypes pushToken resetToken freshToken with_token
       set_type set_text set_uid type_is includesType findKnown];
  cbn [token type text line pos uid cur_line cur_pos tokens existsb find
       TokenType_eqb negb orb andb app length Nat.ltb Nat.leb].

Lemma includesType_pair (ty : TokenType) (oty : option TokenType) :
  includesType [Unknown; ty] oty = true <->
  oty = Some Unknown \/ oty = Some ty.
Proof.
  destruct oty as [ty0|]; cbn [includesType existsb].
  - rewrite orb_false_r, orb_true_iff, !TokenType_eqb_eq.
    split; intros [H | H]; [left | right | left | right]; congruence.
  - split; [discriminate | intros [H | H]; discriminate H].
Qed.

Lemma findKnown_pair (ty : TokenType) :
  accumulates ty = true -> findKnown [Unknown; ty] = Some ty.
Proof. destruct ty; try discriminate; reflexivity. Qed.

Lemma includesType_self (ty : TokenType) :
  includesType [ty] (Some ty) = true.
Proof. now destruct ty. Qed.

Lemma findKnown_single (ty : TokenType) :
  accumulates ty = true -> findKnown [ty] = Some ty.
Proof. destruct ty; try discriminate; reflexivity. Qed.

(** The pending token is of the asked type, or empty: [c] is appended. *)
Lemma accumulate_same (ty : TokenType) (st : Scan number) (c : char) :
  accumulates ty = true ->
  includesType [Unknown; ty] (type (token st)) = true ->
  concatIfTypes getStringUid [ty] c
    (pushIfNotTypes zero getStringUid v [Unknown; ty] st) =
  extend getStringUid ty c st.
Proof.
  intros Hacc Hin. unfold pushIfNotTypes. rewrite Hin.
  unfold concatIfTypes, with_token, set_type.
  cbn [token type text line pos uid cur_line cur_pos tokens].
  rewrite (findKnown_pair _ Hacc), includesType_self, (findKnown_single _ Hacc).
  reflexivity.
Qed.

(** The pending token is of another type: it is pushed, and [c] starts a
    token of the asked type. *)
Lemma accumulate_push (ty : TokenType) (st : Scan number) (c : char) :
  accumulates ty = true ->
  includesType [Unknown; ty] (type (token st)) = false ->
  concatIfTypes getStringUid [ty] c
    (pushIfNotTypes zero getStringUid v [Unknown; ty] st) =
  mkScan (cur_line st) (cur_pos st)
    (mkToken (getStringUid [c]) (Some ty) [c] (cur_line st) (cur_pos st))
    (tokens st ++ [finalized getStringUid v st]).
Proof.
  intros Hacc Hin. unfold pushIfNotTypes. rewrite Hin.
  unfold concatIfTypes, pushToken, resetToken, freshToken, with_token, set_type.
  cbn [token type text line pos uid cur_line cur_pos tokens].
  rewrite (findKnown_pair _ Hacc), includesType_self, (findKnown_single _ Hacc).
  reflexivity.
Qed.

(** [pushIfNotTypes([Unknown, ty])] followed by [concatIfTypes([ty], c)]. *)
Lemma accumulate_outcome (ty : TokenType) (st : Scan number) (c : char) :
  accumulates ty = true ->
  (exists ty0, type (token st) = Some ty0) ->
  Outcome zero getStringUid v st c Break
    (concatIfTypes getStringUid [ty] c
       (pushIfNotTypes zero getStringUid v [Unknown; ty] st)).
Proof.
  intros Hacc [ty0 Hty].
  destruct (includesType [Unknown; ty] (type (token st))) eqn:Hin.
  - rewrite accumulate_same by assumption.
    apply O_extend; [exact Hacc | now apply includesType_pair].
  - rewrite accumulate_push by assumption.
    apply O_flush; [exact Hacc |].
    intros Hu. rewrite Hu in Hin. discriminate Hin.
Qed.

Lemma inside_string_outcome (st : Scan number) (c : char) :
  type_is (token st) String = true ->
  Outcome zero getStringUid v st c Break
    (concatIfTypes getStringUid [String] c st).
Proof.
  destruct st as [l p [u [ty0|] tx tl tp] toks]; try discriminate.
  destruct ty0; try discriminate. intros _. reduce_locals.
  eapply O_extend; cbn [token type]; now auto.
Qed.

(** The delimiter branch, when the delimiter is not escaped. *)
Lemma delimiter_outcome (st : Scan number) (c : char) :
  (exists ty0, type (token st) = Some ty0) ->
  let st1 :=
    concatIfTypes getStringUid [String; Unknown] c
      (pushIfNotTypes zero getStringUid v [Unknown; String] st) in
  Outcome zero getStringUid v st c Break
    (if type_is (token st1) String
        && (1 <? length (text (token st1)))
        && startsWith (text (token st1)) [c]
        && endsWith (text (token st1)) [c]
     then pushToken zero getStringUid v st1
     else st1).
Proof.
  intros [ty0 Hty] st1.
  destruct (includesType [Unknown; String] (type (token st))) eqn:Hin.
  - assert (Hsame : type (token st) = Some Unknown
                    \/ type (token st) = Some String)
      by now apply includesType_pair.
    assert (Hst1 : st1 = extend getStringUid String c st).
    { subst st1. unfold pushIfNotTypes. rewrite Hin. reflexivity. }
    rewrite Hst1. clear Hst1 st1. unfold extend.
    cbv [type_is]. cbn [with_token token type text TokenType_eqb andb].
    destruct ((1 <? length (text (token st) ++ [c]))
              && startsWith (text (token st) ++ [c]) [c]
              && endsWith (text (token st) ++ [c]) [c]) eqn:Hclose.
    + apply andb_prop in Hclose as [Hclose _].
      apply andb_prop in Hclose as [Hlen _].
      apply O_close; eauto using close_nonempty.
    + apply O_extend; auto.
  - assert (Hst1 : st1 =
      mkScan (cur_line st) (cur_pos st)
        (mkToken (getStringUid [c]) (Some String) [c] (cur_line st) (cur_pos st))
        (tokens st ++ [finalized getStringUid v st])).
    { subst st1. unfold pushIfNotTypes. rewrite Hin. reflexivity. }
    rewrite Hst1. clear Hst1 st1.
    cbv [type_is]. cbn [token type text TokenType_eqb andb length Nat.ltb Nat.leb].
    apply O_flush; [reflexivity |].
    intros Hu. rewrite Hu in Hin. discriminate Hin.
Qed.

Lemma classify_outcome (st : Scan number) (c : char) :
  (exists ty, type (token st) = Some ty) ->
  Outcome zero getStringUid v st c
    (fst (classify zero getStringUid v c st))
    (snd (classify zero getStringUid v c st)).
Proof.
  intros Hty. unfold classify.
  destruct (isString v c (cur_line st) (cur_pos st)).
  { destruct (endsWith (text (token st)) [backslash]) eqn:Hesc.
    - apply O_swallow. eauto using endsWith_nonempty.
    - apply delimiter_outcome, Hty. }
  destruct (type_is (token st) String) eqn:Hstr.
  { now apply inside_string_outcome. }
  destruct (isSpace v c (cur_line st) (cur_pos st)).
  { now apply accumulate_outcome. }
  destruct (isSeparator v c (cur_line st) (cur_pos st)).
  { destruct (isNumberSeparator v c (cur_line st) (cur_pos st)
              && type_is (token st) Number);
      now apply accumulate_outcome. }
  destruct (isNumber v c (cur_line st) (cur_pos st)).
  { destruct (type_is (token st) Identifier); now apply accumulate_outcome. }
  destruct (isCharacter v c (cur_line st) (cur_pos st)).
  { destruct (type_is (token st) Number); now apply accumulate_outcome. }
  destruct (isOperator v c (cur_line st) (cur_pos st)).
  { now apply accumulate_outcome. }
  destruct (isNumberSeparator v c (cur_line st) (cur_pos st)
            && type_is (token st) Number);
    now apply accumulate_outcome.
Qed.

(** *** The loop invariant *)

Lemma Inv_initial : Inv getStringUid v (initial zero).
Proof.
  split; simpl.
  - exists Unknown. repeat split; congruence.
  - constructor.
Qed.

Lemma finalized_text (st : Scan number) :
  text (finalized getStringUid v st) = text (token st).
Proof. unfold finalized. case_if; reflexivity. Qed.

Lemma finalized_position (st : Scan number) :
  line (finalized getStringUid v st) = line (token st)
  /\ pos (finalized getStringUid v st) = pos (token st).
Proof. unfold finalized. case_if; split; reflexivity. Qed.

Lemma finalized_Emitted (st : Scan number) :
  Inv getStringUid v st ->
  type (token st) <> Some Unknown ->
  Emitted getStringUid v (finalized getStringUid v st).
Proof.
  intros [(ty & Hty & HnI & HnE & Hu) _] Hk.
  assert (Hne : text (token st) <> []).
  { intros He. apply Hk. rewrite Hty. f_equal. now apply Hu. }
  assert (HnU : ty <> Unknown) by (intros ->; now apply Hk).
  unfold finalized, type_is. rewrite Hty.
  destruct (TokenType_eqb ty Identifier) eqn:Hid; simpl.
  - apply TokenType_eqb_eq in Hid. subst ty.
    destruct (isInstruction v (text (token st)) (cur_line st) (cur_pos st)) eqn:Hin.
    + exists Instruction. simpl. repeat split; try congruence; eauto.
    + exists Identifier. simpl. repeat split; try congruence; eauto.
  - exists ty. simpl. repeat split; try congruence.
    intros ->. discriminate Hid.
Qed.

Lemma Outcome_Inv (st st' : Scan number) (c : char) (k : completion) :
  Outcome zero getStringUid v st c k st' ->
  Inv getStringUid v st -> Inv getStringUid v st'.
Proof.
  intros Ho HI. pose proof HI as [(ty0 & Hty & HnI & HnE & Hu) Htoks].
  destruct Ho as [Hne | ty Hacc Hsame | ty Hacc Hk | Hsame Hne].
  - split; simpl; auto.
    exists ty0. repeat split; auto.
    + intros ->. exfalso. apply Hne. now apply Hu.
    + intros He. now apply app_eq_nil in He as [_ He].
  - split; simpl; auto.
    exists ty. destruct ty; try discriminate Hacc; repeat split; try congruence.
    all: intros He; now apply app_eq_nil in He as [_ He].
  - split; simpl.
    + exists ty. destruct ty; try discriminate Hacc; repeat split; congruence.
    + apply Forall_app. split; auto.
      constructor; auto using finalized_Emitted.
  - split; simpl.
    + exists Unknown. repeat split; congruence.
    + apply Forall_app. split; auto. constructor; auto.
      exists String. simpl. repeat split; try congruence.
      intros He. now apply app_eq_nil in He as [_ He].
Qed.

Lemma Outcome_consumed (st st' : Scan number) (c : char) (k : completion) :
  Outcome zero getStringUid v st c k st' ->
  Inv getStringUid v st ->
  consumed st' = consumed st ++ [c].
Proof.
  intros Ho [(ty0 & Hty & HnI & HnE & Hu) _]. unfold consumed.
  destruct Ho as [Hne | ty Hacc Hsame | ty Hacc Hk | Hsame Hne];
    cbn [tokens token text with_token set_text freshToken].
  - now rewrite app_assoc.
  - now rewrite app_assoc.
  - rewrite map_app, concat_app. cbn [map concat].
    now rewrite finalized_text, app_nil_r.
  - rewrite map_app, concat_app. cbn [map concat text].
    now rewrite !app_nil_r, app_assoc.
Qed.

Lemma iteration_outcome (st : Scan number) (c : char) :
  Inv getStringUid v st ->
  exists k st',
    Outcome zero getStringUid v (countLine c st) c k st'
    /\ iteration zero getStringUid v st c =
       match k with Break => advance st' | Continue => st' end.
Proof.
  intros [(ty & Hty & _) _].
  exists (fst (classify zero getStringUid v c (countLine c st))),
         (snd (classify zero getStringUid v c (countLine c st))).
  split.
  - apply classify_outcome. exists ty.
    unfold countLine. now case_if.
  - unfold iteration.
    now destruct (classify zero getStringUid v c (countLine c st)) as [[] ?].
Qed.

Lemma Inv_countLine (st : Scan number) (c : char) :
  Inv getStringUid v st -> Inv getStringUid v (countLine c st).
Proof. intros [H1 H2]. unfold countLine. case_if; split; auto. Qed.

Lemma consumed_countLine (st : Scan number) (c : char) :
  consumed (countLine c st) = consumed st.
Proof. unfold countLine. now case_if. Qed.

Lemma iteration_Inv (st : Scan number) (c : char) :
  Inv getStringUid v st ->
  Inv getStringUid v (iteration zero getStringUid v st c)
  /\ consumed (iteration zero getStringUid v st c) = consumed st ++ [c].
Proof.
  intros HI. destruct (iteration_outcome c HI) as (k & st' & Ho & ->).
  pose proof (Outcome_Inv Ho (Inv_countLine c HI)) as [H1 H2].
  pose proof (Outcome_consumed Ho (Inv_countLine c HI)) as Hc.
  rewrite consumed_countLine in Hc.
  destruct k; (split; [split; assumption | exact Hc]).
Qed.

Lemma scanFrom_Inv (input : jsstring) (st : Scan number) :
  Inv getStringUid v st ->
  Inv getStringUid v (scanFrom zero getStringUid v st input)
  /\ consumed (scanFrom zero getStringUid v st input) = consumed st ++ input.
Proof.
  revert st. induction input as [|c input IH]; intros st HI; simpl.
  - split; auto. now rewrite app_nil_r.
  - destruct (iteration_Inv c HI) as [HI' Hc].
    destruct (IH _ HI') as [HI'' Hc'].
    split; auto. rewrite Hc', Hc, <- app_assoc. reflexivity.
Qed.

Lemma scan_Inv (input : jsstring) :
  Inv getStringUid v (scan zero getStringUid v input)
  /\ consumed (scan zero getStringUid v input) = input.
Proof. apply (scanFrom_Inv input Inv_initial). Qed.

(** The last [pushIfNotTypes([TokenType.Unknown])]: what is pending is
    pushed, unless nothing is. *)
Lemma run_tokens (eof : bool) (input : jsstring) :
  let st := scan zero getStringUid v input in
  run zero getStringUid v eof input =
    (tokens st
     ++ (if type_is (token st) Unknown then []
         else [finalized getStringUid v st]))
    ++ (if eof then [eofToken zero] else []).
Proof.
  intros st. unfold run. fold st.
  destruct (scan_Inv input) as [[(ty & Hty & _) _] _]. fold st in Hty.
  unfold pushIfNotTypes, type_is, includesType. rewrite Hty.
  cbn [existsb orb].
  destruct (TokenType_eqb ty Unknown); destruct eof; simpl;
    rewrite ?app_nil_r; reflexivity.
Qed.

Lemma run_Emitted (input : jsstring) :
  let st := scan zero getStringUid v input in
  Forall (Emitted getStringUid v)
    (tokens st
     ++ (if type_is (token st) Unknown then []
         else [finalized getStringUid v st])).
Proof.
  intros st. destruct (scan_Inv input) as [HI _]. fold st in HI.
  apply Forall_app. split; [apply HI|].
  destruct (type_is (token st) Unknown) eqn:Hu; constructor; auto.
  apply finalized_Emitted; auto.
  intros He. unfold type_is in Hu. rewrite He in Hu. discriminate Hu.
Qed.

Lemma run_text (input : jsstring) :
  let st := scan zero getStringUid v input in
  concat (map text
    (tokens st
     ++ (if type_is (token st) Unknown then []
         else [finalized getStringUid v st]))) = input.
Proof.
  intros st. destruct (scan_Inv input) as [[(ty & Hty & _ & _ & Hu) _] Hc].
  fold st in Hty, Hu, Hc.
  transitivity (consumed st); [|exact Hc].
  rewrite map_app, concat_app. unfold consumed. f_equal.
  unfold type_is. rewrite Hty.
  destruct (TokenType_eqb ty Unknown) eqn:He; cbn [map concat].
  - apply TokenType_eqb_eq in He. symmetry. now apply Hu.
  - now rewrite finalized_text, app_nil_r.
Qed.

Lemma filter_Emitted (l : list (IToken number)) :
  Forall (Emitted getStringUid v) l ->
  filter (fun t => negb (type_is t EOF)) l = l.
Proof.
  induction 1 as [|t l (ty & Hty & _ & HnE & _) _ IH]; simpl; auto.
  unfold type_is at 1. rewrite Hty.
  destruct (TokenType_eqb ty EOF) eqn:He; simpl.
  - apply TokenType_eqb_eq in He. contradiction.
  - now rewrite IH.
Qed.

Lemma Emitted_length (l : list (IToken number)) :
  Forall (Emitted getStringUid v) l ->
  length l <= length (concat (map text l)).
Proof.
  induction 1 as [|t l (ty & _ & _ & _ & Hne & _) _ IH]; simpl; auto.
  rewrite length_app. destruct (text t); [contradiction | simpl; lia].
Qed.

(** *** Line and column counters *)

Lemma Outcome_counters (st st' : Scan number) (c : char) (k : completion) :
  Outcome zero getStringUid v st c k st' ->
  cur_line st' = cur_line st /\ cur_pos st' = cur_pos st.
Proof. destruct 1; split; reflexivity. Qed.

Lemma classify_completion (st : Scan number) (c : char) :
  fst (classify zero getStringUid v c st) =
    if isString v c (cur_line st) (cur_pos st)
       && endsWith (text (token st)) [backslash]
    then Continue else Break.
Proof.
  unfold classify.
  repeat match goal with
         | |- context [if ?b then (_, _) else _] => destruct b
         | |- context [if ?b && ?d then (_, _) else _] => destruct (b && d)
         end; reflexivity.
Qed.

Lemma iteration_line (st : Scan number) (c : char) :
  Inv getStringUid v st ->
  cur_line (iteration zero getStringUid v st c) = cur_line (countLine c st).
Proof.
  intros HI. destruct (iteration_outcome c HI) as (k & st' & Ho & ->).
  apply Outcome_counters in Ho as [Hl _]. now destruct k.
Qed.

(** The column moves on by one, except on an escaped delimiter. *)
Lemma iteration_column (st : Scan number) (c : char) :
  Inv getStringUid v st ->
  let st0 := countLine c st in
  cur_pos (iteration zero getStringUid v st c) =
    if isString v c (cur_line st0) (cur_pos st0)
       && endsWith (text (token st0)) [backslash]
    then cur_pos st0 else S (cur_pos st0).
Proof.
  intros HI st0. unfold iteration. fold st0.
  assert (Hty : exists ty, type (token st0) = Some ty).
  { destruct (Inv_countLine c HI) as [(ty & Hty & _) _]. eauto. }
  pose proof (classify_outcome st0 c Hty) as Ho.
  apply Outcome_counters in Ho as [_ Hp].
  pose proof (classify_completion st0 c) as Hk.
  destruct (classify zero getStringUid v c st0) as [k st'];
    cbn [fst snd] in Hk, Hp.
  destruct (isString v c (cur_line st0) (cur_pos st0)
            && endsWith (text (token st0)) [backslash]);
    subst k; cbn [advance cur_pos]; now rewrite Hp.
Qed.

Lemma countLine_line (st : Scan number) (c : char) :
  cur_line (countLine c st) = cur_line st + newlines [c].
Proof.
  unfold countLine, newlines, newline. simpl.
  destruct (N.eq_dec c 10) as [->|Hn]; simpl.
  - lia.
  - apply N.eqb_neq in Hn. rewrite Hn. lia.
Qed.

Lemma newlines_app (s t : jsstring) :
  newlines (s ++ t) = newlines s + newlines t.
Proof. apply count_occ_app. Qed.

Lemma scanFrom_line (input : jsstring) (st : Scan number) :
  Inv getStringUid v st ->
  cur_line (scanFrom zero getStringUid v st input) = cur_line st + newlines input.
Proof.
  revert st. induction input as [|c input IH]; intros st HI; simpl.
  - unfold newlines. simpl. lia.
  - destruct (iteration_Inv c HI) as [HI' _].
    rewrite (IH _ HI'), (iteration_line c HI), countLine_line.
    change (c :: input) with ([c] ++ input). rewrite newlines_app. lia.
Qed.

End PolicyFacts.

(** ** The public entry point *)

(** C1. Coverage: whatever the input and the options, the texts of the
    returned tokens, the EOF token left out, concatenate to the input. *)
Theorem coverage_roundtrip (input : jsstring) (options : option ITokenizerOptions) :
  emittedText (tokenizer zero getStringUid input options) = input.
Proof.
  unfold tokenizer, emittedText. rewrite run_tokens.
  rewrite filter_app, (filter_Emitted (run_Emitted (resolve options) input)).
  rewrite map_app, concat_app, run_text.
  destruct (wantsEof options); simpl; now rewrite app_nil_r.
Qed.

(** C8. No token is returned with type [Unknown] (nor with an undefined
    type), and every returned token but the EOF token has a text that is
    not empty. *)
Theorem no_unknown_token (input : jsstring) (options : option ITokenizerOptions) :
  Forall
    (fun t => exists ty,
       type t = Some ty /\ ty <> Unknown /\ (ty <> EOF -> text t <> []))
    (tokenizer zero getStringUid input options).
Proof.
  unfold tokenizer. rewrite run_tokens. apply Forall_app. split.
  - eapply Forall_impl; [|apply run_Emitted].
    intros t (ty & Hty & HnU & _ & Hne & _). exists ty. auto.
  - destruct (wantsEof options); constructor; auto.
    exists EOF. simpl. repeat split; congruence.
Qed.

(** C9. Totality: [tokenizer] is a function defined by recursion on the
    input, so it returns a token sequence on every input and every policy;
    that sequence has at most one token per code unit, plus the EOF token.
    The empty input gives no token but the EOF token, when asked for. *)
Theorem tokenizer_total (input : jsstring) (options : option ITokenizerOptions) :
  (exists toks,
     tokenizer zero getStringUid input options = toks
     /\ length toks <= length input + (if wantsEof options then 1 else 0))
  /\ tokenizer zero getStringUid [] options =
       (if wantsEof options then [eofToken zero] else []).
Proof.
  split.
  - eexists. split; [reflexivity|].
    unfold tokenizer. rewrite run_tokens, length_app.
    pose proof (Emitted_length (run_Emitted (resolve options) input)) as Hl.
    rewrite run_text in Hl.
    destruct (wantsEof options); simpl; lia.
  - unfold tokenizer. now destruct (wantsEof options).
Qed.

(** C10. Line counting does not depend on the policy: while the code unit
    at index [i] is classified, the line counter handed to the validators is
    one plus the number of line feeds at indices [0] to [i], and it is still
    that once the iteration is over. *)
Theorem line_counting (input : jsstring) (options : option ITokenizerOptions)
    (i : nat) (c : char) :
  nth_error input i = Some c ->
  let v := resolve options in
  let before := scan zero getStringUid v (firstn i input) in
  cur_line (countLine c before) = 1 + newlines (firstn (S i) input)
  /\ cur_line (iteration zero getStringUid v before c) =
       1 + newlines (firstn (S i) input).
Proof.
  intros Hc v before.
  assert (Hsplit : firstn (S i) input = firstn i input ++ [c]).
  { clear -Hc. revert i Hc. induction input as [|d input IH]; intros [|i] Hc;
      simpl in *; try discriminate.
    - injection Hc as ->. reflexivity.
    - now rewrite (IH i Hc). }
  assert (Hl : cur_line (countLine c before) = 1 + newlines (firstn (S i) input)).
  { rewrite countLine_line, Hsplit, newlines_app. unfold before, scan.
    rewrite (scanFrom_line (firstn i input) (Inv_initial v)). reflexivity. }
  split; [exact Hl|].
  rewrite iteration_line; [exact Hl|]. apply scan_Inv.
Qed.

(** C6. Instruction promotion.  [pushToken] appends the pending token with
    its text unchanged, typed [Instruction] when it is an [Identifier] that
    [isInstruction] accepts and typed as it was otherwise; the pending token
    is never an [Instruction] itself; so a returned [Instruction] has a text
    that [isInstruction] accepted and a returned [Identifier] has a text that
    [isInstruction] refused. *)
Theorem instruction_promotion (input : jsstring) (options : option ITokenizerOptions) :
  let v := resolve options in
  (forall st : Scan number,
     exists t,
       tokens (pushToken zero getStringUid v st) = tokens st ++ [t]
       /\ text t = text (token st)
       /\ type t =
            if type_is (token st) Identifier
               && isInstruction v (text (token st)) (cur_line st) (cur_pos st)
            then Some Instruction
            else type (token st))
  /\ type (token (scan zero getStringUid v input)) <> Some Instruction
  /\ Forall
       (fun t =>
          (type t = Some Instruction ->
           exists l p, isInstruction v (text t) l p = true)
          /\ (type t = Some Identifier ->
              exists l p, isInstruction v (text t) l p = false))
       (tokenizer zero getStringUid input options).
Proof.
  intros v. split; [|split].
  - intros st. exists (finalized getStringUid v st).
    split; [reflexivity|]. split; [apply finalized_text|].
    unfold finalized. now case_if.
  - destruct (scan_Inv v input) as [[(ty & Hty & HnI & _) _] _].
    rewrite Hty. congruence.
  - unfold tokenizer. rewrite run_tokens. apply Forall_app. split.
    + eapply Forall_impl; [|apply run_Emitted].
      intros t (ty & Hty & _ & _ & _ & _ & Hi & Hd).
      split; intros He; rewrite Hty in He; injection He as ->; auto.
    + destruct (wantsEof options); constructor; auto.
      split; discriminate.
Qed.

(** ** What the branches have tested *)

Section BranchFacts.

Variable v : ITokenizerValidators.

Ltac reduce_scan :=
  cbv [pushIfNotTypes concatIfTypes pushToken resetToken freshToken with_token
       set_type set_text set_uid type_is includesType findKnown];
  cbn [token type text line pos uid cur_line cur_pos tokens existsb find
       TokenType_eqb negb orb andb app length Nat.ltb Nat.leb].

Lemma accumulate_transition (ty : TokenType) (st : Scan number) (c : char) :
  accumulates ty = true ->
  (exists ty0, type (token st) = Some ty0) ->
  type_is (token st) String = false ->
  fits v ty c (cur_line st) (cur_pos st) = true ->
  (type_is (token st) ty = false ->
   opens v ty c (cur_line st) (cur_pos st) = true) ->
  Transition zero getStringUid v st c
    (concatIfTypes getStringUid [ty] c
       (pushIfNotTypes zero getStringUid v [Unknown; ty] st)).
Proof.
  intros Hacc [ty0 Hty] Hstr Hfit Hopen.
  assert (HnS : type (token st) <> Some String).
  { intros Hs. unfold type_is in Hstr. rewrite Hs in Hstr. discriminate Hstr. }
  destruct (includesType [Unknown; ty] (type (token st))) eqn:Hin.
  - rewrite accumulate_same by assumption.
    apply includesType_pair in Hin.
    apply T_extend; auto.
    intros Hu. apply Hopen. unfold type_is. rewrite Hu.
    destruct ty; try discriminate Hacc; reflexivity.
  - rewrite accumulate_push by assumption.
    assert (Hno : ~ (type (token st) = Some Unknown
                     \/ type (token st) = Some ty)).
    { intros H. apply includesType_pair in H. congruence. }
    apply T_flush; auto.
    apply Hopen. unfold type_is. rewrite Hty.
    destruct (TokenType_eqb ty0 ty) eqn:He; auto.
    apply TokenType_eqb_eq in He. subst ty0. exfalso. auto.
Qed.

Lemma inside_string_transition (st : Scan number) (c : char) :
  type_is (token st) String = true ->
  Transition zero getStringUid v st c
    (concatIfTypes getStringUid [String] c st).
Proof.
  destruct st as [l p [u [ty0|] tx tl tp] toks]; try discriminate.
  destruct ty0; try discriminate. intros _. reduce_scan.
  eapply T_extend; cbn [token type]; auto; discriminate.
Qed.

Lemma delimiter_transition (st : Scan number) (c : char) :
  (exists ty0, type (token st) = Some ty0) ->
  isString v c (cur_line st) (cur_pos st) = true ->
  let st1 :=
    concatIfTypes getStringUid [String; Unknown] c
      (pushIfNotTypes zero getStringUid v [Unknown; String] st) in
  Transition zero getStringUid v st c
    (if type_is (token st1) String
        && (1 <? length (text (token st1)))
        && startsWith (text (token st1)) [c]
        && endsWith (text (token st1)) [c]
     then pushToken zero getStringUid v st1
     else st1).
Proof.
  intros [ty0 Hty] Hq st1.
  destruct (includesType [Unknown; String] (type (token st))) eqn:Hin.
  - assert (Hsame : type (token st) = Some Unknown
                    \/ type (token st) = Some String).
    { rewrite Hty in *. destruct ty0; try discriminate Hin; auto. }
    assert (Hst1 : st1 =
      with_token
        (mkToken (getStringUid (text (token st) ++ [c])) (Some String)
           (text (token st) ++ [c]) (line (token st)) (pos (token st))) st).
    { subst st1. unfold pushIfNotTypes. rewrite Hin. reflexivity. }
    rewrite Hst1. clear Hst1 st1.
    cbv [type_is]. cbn [with_token token type text TokenType_eqb andb].
    destruct ((1 <? length (text (token st) ++ [c]))
              && startsWith (text (token st) ++ [c]) [c]
              && endsWith (text (token st) ++ [c]) [c]) eqn:Hclose.
    + apply andb_prop in Hclose as [Hclose _].
      apply andb_prop in Hclose as [Hlen Hstart].
      apply T_close; eauto using close_nonempty.
    + apply T_extend; auto.
  - assert (Hst1 : st1 =
      mkScan (cur_line st) (cur_pos st)
        (mkToken (getStringUid [c]) (Some String) [c] (cur_line st) (cur_pos st))
        (tokens st ++ [finalized getStringUid v st])).
    { subst st1. unfold pushIfNotTypes. rewrite Hin. reflexivity. }
    rewrite Hst1. clear Hst1 st1.
    cbv [type_is]. cbn [token type text TokenType_eqb andb length Nat.ltb Nat.leb].
    apply T_flush; [reflexivity | | | | exact Hq]; rewrite Hty in *;
      destruct ty0; try discriminate Hin; discriminate.
Qed.

Lemma classify_transition (st : Scan number) (c : char) :
  (exists ty, type (token st) = Some ty) ->
  Transition zero getStringUid v st c
    (snd (classify zero getStringUid v c st)).
Proof.
  intros Hty. unfold classify.
  destruct (isString v c (cur_line st) (cur_pos st)) eqn:Hq.
  { destruct (endsWith (text (token st)) [backslash]) eqn:Hesc.
    - now apply T_swallow.
    - now apply delimiter_transition. }
  destruct (type_is (token st) String) eqn:Hstr.
  { now apply inside_string_transition. }
  assert (Hchain : forall ty b,
    b = true ->
    (opens v ty c (cur_line st) (cur_pos st) = b
     \/ (type_is (token st) ty = true
         /\ fits v ty c (cur_line st) (cur_pos st) = b)) ->
    fits v ty c (cur_line st) (cur_pos st) = b ->
    accumulates ty = true ->
    Transition zero getStringUid v st c
      (concatIfTypes getStringUid [ty] c
         (pushIfNotTypes zero getStringUid v [Unknown; ty] st))).
  { intros ty b -> Hopen Hfit Hacc. apply accumulate_transition; auto.
    intros Hno. destruct Hopen as [Ho | [Hyes _]]; congruence. }
  destruct (isSpace v c (cur_line st) (cur_pos st)) eqn:Hsp.
  { apply (Hchain Space true); auto; cbn [fits opens];
      try left; now rewrite Hq, Hsp. }
  destruct (isSeparator v c (cur_line st) (cur_pos st)) eqn:Hsep.
  { destruct (isNumberSeparator v c (cur_line st) (cur_pos st)) eqn:Hns;
      destruct (type_is (token st) Number) eqn:Hnum; cbn [andb fst snd].
    - apply (Hchain Number true); auto; cbn [fits];
        try right; try split; auto; now rewrite Hq, Hsp, Hsep, Hns.
    - apply (Hchain Separator true); auto; cbn [fits opens];
        try left; now rewrite Hq, Hsp, Hsep.
    - apply (Hchain Separator true); auto; cbn [fits opens];
        try left; now rewrite Hq, Hsp, Hsep.
    - apply (Hchain Separator true); auto; cbn [fits opens];
        try left; now rewrite Hq, Hsp, Hsep. }
  destruct (isNumber v c (cur_line st) (cur_pos st)) eqn:Hd.
  { destruct (type_is (token st) Identifier) eqn:Hid; cbn [fst snd].
    - apply (Hchain Identifier true); auto; cbn [fits];
        try right; try split; auto; now rewrite Hq, Hsp, Hsep, Hd.
    - apply (Hchain Number true); auto; cbn [fits opens];
        try left; now rewrite Hq, Hsp, Hsep, Hd. }
  destruct (isCharacter v c (cur_line st) (cur_pos st)) eqn:Ha.
  { destruct (type_is (token st) Number) eqn:Hnum; cbn [fst snd].
    - apply (Hchain Number true); auto; cbn [fits];
        try right; try split; auto; now rewrite Hq, Hsp, Hsep, Hd, Ha.
    - apply (Hchain Identifier true); auto; cbn [fits opens];
        try left; now rewrite Hq, Hsp, Hsep, Hd, Ha. }
  destruct (isOperator v c (cur_line st) (cur_pos st)) eqn:Hop.
  { apply (Hchain Operator true); auto; cbn [fits opens];
      try left; now rewrite Hq, Hsp, Hsep, Hd, Ha, Hop. }
  destruct (isNumberSeparator v c (cur_line st) (cur_pos st)) eqn:Hns;
    destruct (type_is (token st) Number) eqn:Hnum; cbn [andb fst snd].
  - apply (Hchain Number true); auto; cbn [fits];
      try right; try split; auto; now rewrite Hq, Hsp, Hsep, Hd, Ha, Hop, Hns.
  - apply (Hchain Identifier true); auto; cbn [fits opens];
      try left; now rewrite Hq, Hsp, Hsep, Hd, Ha, Hop.
  - apply (Hchain Identifier true); auto; cbn [fits opens];
      try left; now rewrite Hq, Hsp, Hsep, Hd, Ha, Hop.
  - apply (Hchain Identifier true); auto; cbn [fits opens];
      try left; now rewrite Hq, Hsp, Hsep, Hd, Ha, Hop.
Qed.

Lemma iteration_transition (st : Scan number) (c : char) :
  Inv getStringUid v st ->
  exists st',
    Transition zero getStringUid v (countLine c st) c st'
    /\ (iteration zero getStringUid v st c = st'
        \/ iteration zero getStringUid v st c = advance st').
Proof.
  intros [(ty & Hty & _) _].
  exists (snd (classify zero getStringUid v c (countLine c st))). split.
  - apply classify_transition. exists ty. unfold countLine. now case_if.
  - unfold iteration.
    destruct (classify zero getStringUid v c (countLine c st)) as [[] ?];
      auto.
Qed.

(** Induction along a scan, with the loop invariant at hand. *)
Lemma scan_induction (P : Scan number -> Prop) :
  P (initial zero) ->
  (forall st c,
     Inv getStringUid v st -> P st ->
     P (iteration zero getStringUid v st c)) ->
  forall input, P (scan zero getStringUid v input).
Proof.
  intros H0 Hstep input. unfold scan.
  assert (H : Inv getStringUid v (initial zero) /\ P (initial zero))
    by (split; [apply Inv_initial | exact H0]).
  revert H. generalize (initial zero).
  induction input as [|c input IH]; intros st [HI HP]; simpl; auto.
  apply IH. split; [apply (iteration_Inv c HI) | now apply Hstep].
Qed.

Lemma countLine_token (st : Scan number) (c : char) :
  token (countLine c st) = token st /\ tokens (countLine c st) = tokens st.
Proof. unfold countLine. now case_if. Qed.

Lemma advance_token (st : Scan number) :
  token (advance st) = token st /\ tokens (advance st) = tokens st.
Proof. split; reflexivity. Qed.

(** An invariant that only reads [token] and [tokens] need only be checked
    on the four shapes. *)
Lemma scan_induction_tokens (P : IToken number -> list (IToken number) -> Prop) :
  P (freshToken zero 1 1) [] ->
  (forall st c st',
     Inv getStringUid v st -> P (token st) (tokens st) ->
     Transition zero getStringUid v st c st' ->
     P (token st') (tokens st')) ->
  forall input,
    P (token (scan zero getStringUid v input))
      (tokens (scan zero getStringUid v input)).
Proof.
  intros H0 Hstep.
  apply (scan_induction (fun st => P (token st) (tokens st))); [exact H0|].
  intros st c HI HP.
  destruct (iteration_transition c HI) as (st' & Ht & [-> | ->]).
  - apply (Hstep (countLine c st) c st'); auto using Inv_countLine.
    now destruct (countLine_token st c) as [-> ->].
  - cbn [advance token tokens].
    apply (Hstep (countLine c st) c st'); auto using Inv_countLine.
    now destruct (countLine_token st c) as [-> ->].
Qed.

Lemma pending_nonempty (st : Scan number) :
  Inv getStringUid v st ->
  type (token st) <> Some Unknown -> text (token st) <> [].
Proof.
  intros [(ty & Hty & _ & _ & Hu) _] Hk He. apply Hk.
  rewrite Hty. f_equal. now apply Hu.
Qed.

Lemma pending_empty (st : Scan number) :
  Inv getStringUid v st ->
  type (token st) = Some Unknown -> text (token st) = [].
Proof.
  intros [(ty & Hty & _ & _ & Hu) _] Hk. apply Hu. congruence.
Qed.

Lemma pending_string (st : Scan number) :
  Inv getStringUid v st ->
  type (token st) = Some Unknown \/ type (token st) = Some String ->
  text (token st) <> [] -> type (token st) = Some String.
Proof.
  intros HI [Hu | Hs] Hne; auto.
  exfalso. apply Hne. now apply pending_empty.
Qed.

(** The type of the pushed token, as it was while pending. *)
Lemma finalized_baseType (st : Scan number) :
  Inv getStringUid v st ->
  baseType (finalized getStringUid v st) = type (token st).
Proof.
  intros [(ty & Hty & HnI & _) _].
  unfold baseType, finalized, type_is. rewrite Hty.
  destruct ty; cbn [TokenType_eqb andb set_uid set_type type option_map];
    try (rewrite Hty; reflexivity).
  - destruct (isInstruction v (text (token st)) (cur_line st) (cur_pos st));
      cbn [set_type type option_map]; [reflexivity | now rewrite Hty].
  - now elim HnI.
Qed.

(** Assembling a property of every returned token. *)
Lemma run_Forall (Q : IToken number -> Prop) (eof : bool) (input : jsstring) :
  let st := scan zero getStringUid v input in
  Forall Q (tokens st) ->
  (type (token st) <> Some Unknown -> Q (finalized getStringUid v st)) ->
  Q (eofToken zero) ->
  Forall Q (run zero getStringUid v eof input).
Proof.
  intros st Htoks Hfin Heof. rewrite run_tokens. fold st.
  apply Forall_app. split; [apply Forall_app; split; [exact Htoks|] |].
  - unfold type_is.
    destruct (type (token st)) as [[]|] eqn:Hty; cbn [TokenType_eqb];
      constructor; auto; apply Hfin; congruence.
  - destruct eof; auto.
Qed.

(** *** What a token is made of *)

Lemma scan_Built (input : jsstring) :
  let st := scan zero getStringUid v input in
  (forall ty, type (token st) = Some ty -> text (token st) <> [] ->
              Built v ty (text (token st)))
  /\ Forall
       (fun t => forall ty, type t = Some ty ->
                            Built v (pendingType ty) (text t))
       (tokens st).
Proof.
  apply (scan_induction_tokens
    (fun tok toks =>
       (forall ty, type tok = Some ty -> text tok <> [] -> Built v ty (text tok))
       /\ Forall
            (fun t => forall ty, type t = Some ty ->
                                 Built v (pendingType ty) (text t))
            toks)).
  - split; [intros ty _ H; now elim H | constructor].
  - intros st c st' HI [Hpend Htoks] Ht.
    destruct Ht as [Hq Hesc | ty Hacc Hsame Hfit Hopen
                   | ty Hacc HnU HnS Hne Hopen | Hsame Hne Hq Hstart];
      cbn [with_token set_text token tokens type text].
    + split; auto. intros ty Hty _.
      apply B_escaped; eauto using endsWith_nonempty.
    + split; auto. intros ty' Hty' _. injection Hty' as <-.
      destruct Hsame as [Hu | Hs].
      * rewrite (pending_empty HI Hu). apply B_open; eauto.
      * apply B_more; eauto. apply Hpend; auto.
        apply pending_nonempty; auto. rewrite Hs.
        intros He. injection He as ->. discriminate Hacc.
    + split.
      * intros ty' Hty' _. injection Hty' as <-. apply B_open; eauto.
      * apply Forall_app. split; auto. constructor; auto.
        intros ty' Hty'. rewrite finalized_text.
        pose proof (finalized_baseType HI) as Hb.
        unfold baseType in Hb. rewrite Hty' in Hb. cbn in Hb.
        apply Hpend; auto using pending_nonempty.
    + split.
      * intros ty _ H. now elim H.
      * apply Forall_app. split; auto. constructor; auto.
        intros ty' Hty'. injection Hty' as <-. cbn [pendingType].
        apply B_more; [|exists 0, 0; reflexivity].
        apply Hpend; auto using pending_string.
Qed.

(** *** Neighbours *)

Lemma alternates_snoc (l : list (IToken number)) (t : IToken number) :
  alternates l ->
  (forall l' t1, l = l' ++ [t1] ->
                 baseType t1 = baseType t -> type t1 = Some String) ->
  alternates (l ++ [t]).
Proof.
  induction l as [|a [|b l] IH]; intros Hl Hlast; cbn [app alternates]; auto.
  - split; auto. apply (Hlast [] a); reflexivity.
  - destruct Hl as [Hab Hl]. split; auto.
    apply IH; auto. intros l' t1 He. apply (Hlast (a :: l') t1).
    cbn [app]. now rewrite He.
Qed.

Lemma scan_alternates (input : jsstring) :
  let st := scan zero getStringUid v input in
  alternates (tokens st)
  /\ (forall l' t1, tokens st = l' ++ [t1] ->
         type t1 = Some String
         \/ (type (token st) <> Some Unknown /\ baseType t1 <> type (token st))).
Proof.
  apply (scan_induction_tokens
    (fun tok toks =>
       alternates toks
       /\ (forall l' t1, toks = l' ++ [t1] ->
              type t1 = Some String
              \/ (type tok <> Some Unknown /\ baseType t1 <> type tok)))).
  - split; [exact I|]. intros [|? ?] t1 He; discriminate He.
  - intros st c st' HI [Halt Hlast] Ht.
    destruct Ht as [Hq Hesc | ty Hacc Hsame Hfit Hopen
                   | ty Hacc HnU HnS Hne Hopen | Hsame Hne Hq Hstart];
      cbn [with_token set_text token tokens type text].
    + split; auto.
    + split; auto. intros l' t1 He.
      destruct (Hlast l' t1 He) as [Hs | [Hk Hb]]; auto.
      right. destruct Hsame as [Hu | Hs]; [contradiction|].
      rewrite <- Hs. auto.
    + split.
      * apply alternates_snoc; auto. intros l' t1 He Hb.
        destruct (Hlast l' t1 He) as [Hs | [_ Hd]]; auto.
        rewrite (finalized_baseType HI) in Hb. contradiction.
      * intros l' t1 He. apply app_inj_tail in He as [_ <-]. right.
        rewrite (finalized_baseType HI). split; [|exact Hne].
        destruct ty; discriminate.
    + split.
      * apply alternates_snoc; auto. intros l' t1 He Hb.
        destruct (Hlast l' t1 He) as [Hs | [_ Hd]]; auto.
        rewrite (pending_string HI Hsame Hne) in Hd. now elim Hd.
      * intros l' t1 He. apply app_inj_tail in He as [_ <-]. now left.
Qed.

(** *** Strings that were pushed before the end are closed *)

Lemma scan_Closed (input : jsstring) :
  Forall (fun t => type t = Some String -> Closed v (text t))
    (tokens (scan zero getStringUid v input)).
Proof.
  apply (scan_induction_tokens
    (fun _ toks =>
       Forall (fun t => type t = Some String -> Closed v (text t)) toks)).
  - constructor.
  - intros st c st' HI Htoks Ht.
    destruct Ht as [Hq Hesc | ty Hacc Hsame Hfit Hopen
                   | ty Hacc HnU HnS Hne Hopen | Hsame Hne Hq Hstart];
      cbn [with_token tokens]; auto.
    + apply Forall_app. split; auto. constructor; auto.
      intros Hs. exfalso. apply HnS.
      rewrite <- (finalized_baseType HI). unfold baseType. now rewrite Hs.
    + apply Forall_app. split; auto. constructor; auto.
      intros _. cbn [text].
      destruct (text (token st)) as [|q body]; [now elim Hne|].
      cbn [app startsWith] in Hstart.
      apply andb_prop in Hstart as [Hqc _]. apply N.eqb_eq in Hqc. subst q.
      exists c, body. split; eauto.
Qed.

(** *** Where tokens say they are *)

Lemma allPlaced_snoc (before : jsstring) (l : list (IToken number))
    (t : IToken number) :
  allPlaced before l ->
  placed (before ++ concat (map text l)) t ->
  allPlaced before (l ++ [t]).
Proof.
  revert before. induction l as [|a l IH]; intros before Hl Ht; cbn in *.
  - rewrite app_nil_r in Ht. auto.
  - destruct Hl as [Ha Hl]. split; auto. apply IH; auto.
    now rewrite <- app_assoc.
Qed.

Lemma firstn_1_snoc (s : jsstring) (c : char) :
  s <> [] -> firstn 1 (s ++ [c]) = firstn 1 s.
Proof. destruct s; [congruence | reflexivity]. Qed.

Lemma newlines_snoc_le (s : jsstring) (c : char) :
  newlines s <= newlines (s ++ [c]).
Proof. rewrite newlines_app. lia. Qed.

Lemma countLine_pos (st : Scan number) (c : char) (n : nat) :
  1 <= cur_pos st <= 1 + n ->
  1 <= cur_pos (countLine c st) <= 1 + n.
Proof. unfold countLine. case_if; cbn [cur_pos]; lia. Qed.

Lemma placed_more (before : jsstring) (u u' : number) (ty ty' : option TokenType)
    (s : jsstring) (c : char) (l p : nat) :
  placed before (mkToken u ty s l p) ->
  placed before (mkToken u' ty' (s ++ [c]) l p).
Proof.
  unfold placed. cbn [line pos text]. intros (H1 & H2 & H3 & H4).
  repeat split; auto.
  destruct s as [|d s]; cbn [app firstn] in *; auto.
  rewrite app_nil_r in H2. pose proof (newlines_snoc_le before c). lia.
Qed.

Lemma placed_same (before : jsstring) (t t' : IToken number) :
  text t' = text t -> line t' = line t -> pos t' = pos t ->
  placed before t -> placed before t'.
Proof. unfold placed. now intros -> -> ->. Qed.

Lemma scan_placed (input : jsstring) :
  let st := scan zero getStringUid v input in
  cur_line st = 1 + newlines (consumed st)
  /\ 1 <= cur_pos st <= 1 + length (consumed st)
  /\ allPlaced [] (tokens st)
  /\ placed (concat (map text (tokens st))) (token st)
  /\ firstAtOrigin (token st) (tokens st).
Proof.
  apply (scan_induction
    (fun st =>
       cur_line st = 1 + newlines (consumed st)
       /\ 1 <= cur_pos st <= 1 + length (consumed st)
       /\ allPlaced [] (tokens st)
       /\ placed (concat (map text (tokens st))) (token st)
       /\ firstAtOrigin (token st) (tokens st))).
  - cbn. unfold placed, newlines. cbn. repeat split; lia.
  - intros st c HI (Hline & Hpos & Hall & Hpend & Hfirst).
    destruct (iteration_Inv c HI) as [_ Hcons].
    destruct (iteration_transition c HI) as (st' & Ht & Hit).
    pose proof (countLine_line st c) as Hl0.
    pose proof (@countLine_pos st c _ Hpos) as Hp0.
    destruct (countLine_token st c) as [Htok0 Htoks0].
    pose proof (Inv_countLine c HI) as HI0.
    set (st0 := countLine c st) in *.
    assert (Hline0 : cur_line st0 = 1 + newlines (consumed st ++ [c]))
      by (rewrite newlines_app; lia).
    assert (Hst' :
      cur_line st' = 1 + newlines (consumed st ++ [c])
      /\ 1 <= cur_pos st' <= 1 + length (consumed st)
      /\ allPlaced [] (tokens st')
      /\ placed (concat (map text (tokens st'))) (token st')
      /\ firstAtOrigin (token st') (tokens st')).
    { destruct Ht as [Hq Hesc | ty Hacc Hsame Hfit Hopen
                     | ty Hacc HnU HnS Hne Hopen | Hsame Hne Hq Hstart];
        cbn [with_token token tokens cur_line cur_pos];
        rewrite ?Htok0, ?Htoks0 in *;
        (split; [exact Hline0 | split; [lia | split; [| split]]]).
      - exact Hall.
      - destruct (token st) as [u ty s l p].
        cbn [set_text text uid type line pos].
        eapply placed_more; exact Hpend.
      - destruct (tokens st); destruct (token st); exact Hfirst.
      - exact Hall.
      - destruct (token st) as [u ty0 s l p].
        cbn [text line pos]. eapply placed_more; exact Hpend.
      - destruct (tokens st); destruct (token st); exact Hfirst.
      - apply allPlaced_snoc; auto.
        apply (placed_same (t := token st)); auto.
        + rewrite finalized_text. now rewrite Htok0.
        + rewrite <- Htok0. apply finalized_position.
        + rewrite <- Htok0. apply finalized_position.
      - rewrite map_app, concat_app. cbn [map concat].
        rewrite finalized_text, app_nil_r, Htok0. fold (consumed st).
        unfold placed. cbn [line pos text firstn].
        pose proof (newlines_snoc_le (consumed st) c). repeat split; lia.
      - destruct (tokens st) as [|t0 ts]; cbn [app firstAtOrigin]; auto.
        destruct (finalized_position v st0) as [-> ->].
        now rewrite Htok0.
      - apply allPlaced_snoc; auto.
        destruct (token st) as [u ty0 s l p].
        cbn [text line pos]. eapply placed_more; exact Hpend.
      - rewrite map_app, concat_app. cbn [map concat text].
        rewrite app_nil_r, app_assoc. fold (consumed st).
        unfold placed, freshToken. cbn [line pos text firstn].
        rewrite app_nil_r, length_app. cbn [length]. repeat split; lia.
      - destruct (tokens st) as [|t0 ts]; destruct (token st);
          cbn [app firstAtOrigin]; exact Hfirst. }
    destruct Hst' as (H1 & H2 & H3 & H4 & H5).
    rewrite Hcons, length_app. cbn [length].
    destruct Hit as [-> | ->]; cbn [advance cur_line cur_pos token tokens];
      (split; [exact H1 | split; [lia | split; [exact H3 | split; [exact H4 | exact H5]]]]).
Qed.

(** The returned tokens but the EOF token are the pushed tokens, then the
    pending one if there is one. *)
Lemma withoutEof_run (eof : bool) (input : jsstring) :
  let st := scan zero getStringUid v input in
  withoutEof (run zero getStringUid v eof input) =
    tokens st
    ++ (if type_is (token st) Unknown then []
        else [finalized getStringUid v st]).
Proof.
  intros st. unfold withoutEof. rewrite run_tokens.
  rewrite filter_app, (filter_Emitted (run_Emitted v input)). fold st.
  destruct eof; cbn; now rewrite app_nil_r.
Qed.

Lemma run_withoutEof (eof : bool) (input : jsstring) :
  run zero getStringUid v eof input =
    withoutEof (run zero getStringUid v eof input)
    ++ (if eof then [eofToken zero] else []).
Proof. rewrite withoutEof_run. apply run_tokens. Qed.

Lemma Forall_removelast (A : Type) (P : A -> Prop) (l : list A) :
  Forall P l -> Forall P (removelast l).
Proof.
  induction 1 as [|a l Ha Hl IH]; cbn; auto.
  destruct l; auto.
Qed.

End BranchFacts.

(** ** The default character classes *)

Lemma includes_single (s : jsstring) (c : char) :
  includes s [c] = existsb (fun d => (d =? c)%N) s.
Proof.
  assert (Hnil : forall r : jsstring, startsWith r [] = true)
    by (now intros []).
  induction s as [|d s IH]; cbn [includes startsWith existsb]; auto.
  now rewrite IH, Hnil, andb_true_r.
Qed.

Lemma includes_single_In (s : jsstring) (c : char) :
  includes s [c] = true <-> In c s.
Proof.
  rewrite includes_single, existsb_exists. split.
  - intros (d & Hin & He). apply N.eqb_eq in He. now subst d.
  - intros Hin. exists c. split; auto. apply N.eqb_refl.
Qed.

Lemma endsWith_In (s : jsstring) (c : char) :
  endsWith s [c] = true -> In c s.
Proof.
  unfold endsWith. cbn [rev app]. intros H. apply in_rev.
  destruct (rev s) as [|d r]; [discriminate H|].
  cbn [startsWith] in H. apply andb_prop in H as [H _].
  apply N.eqb_eq in H. subst d. now left.
Qed.

Lemma _isSpace_spec (c : char) :
  _isSpace c = true <-> In c [32; 9; 13; 10]%N.
Proof. apply includes_single_In. Qed.

Lemma _isSeparator_spec (c : char) :
  _isSeparator c = true <->
  In c [91; 93; 40; 41; 123; 125; 46; 35; 63; 194; 191; 58; 59; 44; 32]%N.
Proof. apply includes_single_In. Qed.

Lemma _isOperator_spec (c : char) :
  _isOperator c = true <-> In c [43; 45; 42; 47; 94; 37; 38; 61; 60; 62]%N.
Proof. apply includes_single_In. Qed.

Lemma _isNumeric_spec (c : char) :
  _isNumeric c = true <-> (48 <= c <= 57)%N.
Proof.
  unfold _isNumeric. change minNumber with 48%N. change maxNumber with 57%N.
  rewrite andb_true_iff, !N.leb_le. reflexivity.
Qed.

Lemma _isAlpha_spec (c : char) :
  _isAlpha c = true <-> ((97 <= c <= 122)%N \/ (65 <= c <= 90)%N).
Proof.
  unfold _isAlpha.
  change minLetter1 with 97%N. change maxLetter1 with 122%N.
  change minLetter2 with 65%N. change maxLetter2 with 90%N.
  rewrite orb_true_iff, !andb_true_iff, !N.leb_le. reflexivity.
Qed.

(** Decide a default class on a code unit that arithmetic pins down. *)
Ltac class_facts :=
  repeat match goal with
         | H : _isSpace _ = true |- _ => apply _isSpace_spec in H
         | H : _isSeparator _ = true |- _ => apply _isSeparator_spec in H
         | H : _isOperator _ = true |- _ => apply _isOperator_spec in H
         | H : _isNumeric _ = true |- _ => apply _isNumeric_spec in H
         | H : _isAlpha _ = true |- _ => apply _isAlpha_spec in H
         | H : (_ =? _)%N = true |- _ => apply N.eqb_eq in H
         end;
  cbn [In] in *.

Ltac class_false :=
  match goal with
  | |- _ = false =>
      apply not_true_iff_false; intros ?Hyes; class_facts;
      unfold dquote, dot, backslash in *; lia
  end.

(** X8. The default classes do not overlap, but for the space, which is both
    a space and a separator, and the dot, which is both a separator and the
    number separator; the quotation mark and the backslash are in none. *)
Theorem default_classes_disjoint (c : char) :
  (_isSpace c = true ->
   _isNumeric c = false /\ _isAlpha c = false /\ _isOperator c = false
   /\ (c =? dquote)%N = false /\ (c =? backslash)%N = false
   /\ (_isSeparator c = true <-> c = 32%N))
  /\ (_isSeparator c = true ->
      _isNumeric c = false /\ _isAlpha c = false /\ _isOperator c = false
      /\ (c =? dquote)%N = false /\ (c =? backslash)%N = false)
  /\ (_isNumeric c = true ->
      _isAlpha c = false /\ _isOperator c = false
      /\ (c =? dquote)%N = false /\ (c =? backslash)%N = false)
  /\ (_isAlpha c = true ->
      _isOperator c = false
      /\ (c =? dquote)%N = false /\ (c =? backslash)%N = false)
  /\ (_isOperator c = true ->
      (c =? dquote)%N = false /\ (c =? backslash)%N = false)
  /\ _isSeparator dot = true.
Proof.
  repeat split; try class_false; try reflexivity.
  - intros Hsep. class_facts. lia.
  - intros ->. reflexivity.
Qed.

(** ** More on the public entry point *)

(** X1. Every returned token carries the hash of its own text, also when
    escaped delimiters were appended without refreshing it; the EOF token
    carries zero. *)
Theorem uid_consistency (input : jsstring) (options : option ITokenizerOptions) :
  Forall
    (fun t => uid t = if type_is t EOF then zero else getStringUid (text t))
    (tokenizer zero getStringUid input options).
Proof.
  unfold tokenizer. apply run_Forall.
  - eapply Forall_impl; [|apply scan_Inv].
    intros t (ty & Hty & _ & HnE & _ & Hu & _). unfold type_is. rewrite Hty.
    destruct ty; try exact Hu. now elim HnE.
  - intros Hk.
    destruct (finalized_Emitted (proj1 (scan_Inv (resolve options) input)) Hk)
      as (ty & Hty & _ & HnE & _ & Hu & _).
    unfold type_is. rewrite Hty. destruct ty; try exact Hu. now elim HnE.
  - reflexivity.
Qed.

(** X2. The EOF token is returned only as the last token and only when
    [insertEof] asks for it, and asking for it changes no other token. *)
Theorem eof_token_last (input : jsstring) (vs : option PartialValidators)
    (eof : option bool) :
  let options := Some (mkOptions vs eof) in
  tokenizer zero getStringUid input options =
    withoutEof (tokenizer zero getStringUid input options)
    ++ (if wantsEof options then [eofToken zero] else [])
  /\ withoutEof (tokenizer zero getStringUid input options) =
       tokenizer zero getStringUid input (Some (mkOptions vs None)).
Proof.
  intros options. split.
  - apply run_withoutEof.
  - unfold tokenizer.
    change (resolve (Some (mkOptions vs None))) with (resolve options).
    change (wantsEof (Some (mkOptions vs None))) with false.
    rewrite (run_withoutEof (resolve options) false input).
    rewrite app_nil_r, !withoutEof_run. reflexivity.
Qed.

(** X3. Neighbours differ: two consecutive returned tokens were never
    pending with the same type (an [Instruction] counting as the
    [Identifier] it was), unless the first of them is a [String]. *)
Theorem neighbours_differ (input : jsstring) (options : option ITokenizerOptions) :
  alternates (tokenizer zero getStringUid input options).
Proof.
  unfold tokenizer. set (v := resolve options).
  pose proof (scan_alternates v input) as [Halt Hlast].
  pose proof (scan_Inv v input) as [HI _].
  pose proof (run_Emitted v input) as Hem. cbv zeta in Hem.
  rewrite run_tokens.
  set (st := scan zero getStringUid v input) in *.
  assert (Hbody : alternates
            (tokens st ++ (if type_is (token st) Unknown then []
                           else [finalized getStringUid v st]))).
  { unfold type_is.
    destruct (type (token st)) as [ty|] eqn:Hty;
      [destruct (TokenType_eqb ty Unknown) eqn:Hu|];
      rewrite ?app_nil_r; auto.
    all: apply alternates_snoc; auto; intros l' t1 He Hb.
    all: destruct (Hlast l' t1 He) as [Hs | [_ Hd]]; auto.
    all: rewrite (finalized_baseType HI) in Hb; congruence. }
  destruct (wantsEof options); [|now rewrite app_nil_r].
  apply alternates_snoc; auto. intros l' t1 He Hb.
  rewrite He in Hem. apply Forall_app in Hem as [_ Hem].
  inversion Hem as [|? ? (ty & Hty & _ & HnE & _) _]; subst.
  unfold baseType in Hb. rewrite Hty in Hb. cbn in Hb.
  destruct ty; try discriminate Hb. now elim HnE.
Qed.

(** X4. A [String] token that is not the last returned token (the EOF token
    aside) is a closed literal: it opens and ends with the same delimiter. *)
Theorem inner_strings_closed (input : jsstring) (options : option ITokenizerOptions) :
  Forall
    (fun t => type t = Some String -> Closed (resolve options) (text t))
    (removelast (withoutEof (tokenizer zero getStringUid input options))).
Proof.
  unfold tokenizer. rewrite withoutEof_run.
  pose proof (scan_Closed (resolve options) input) as Hc.
  destruct (type_is (token (scan zero getStringUid (resolve options) input)) Unknown).
  - rewrite app_nil_r. now apply Forall_removelast.
  - now rewrite removelast_last.
Qed.

(** X5. Every returned token but the EOF token stores a line between the
    line of the end of the input before it and the line of its first code
    unit (these differ only when that unit is a line feed), and a column
    from 1 to one more than the length of the input before it. *)
Theorem tokens_placed (input : jsstring) (options : option ITokenizerOptions) :
  allPlaced [] (withoutEof (tokenizer zero getStringUid input options)).
Proof.
  unfold tokenizer. rewrite withoutEof_run.
  pose proof (scan_placed (resolve options) input) as (_ & _ & Hall & Hpend & _).
  destruct (type_is (token (scan zero getStringUid (resolve options) input)) Unknown).
  - now rewrite app_nil_r.
  - apply allPlaced_snoc; auto.
    eapply placed_same; [apply finalized_text | | | exact Hpend];
      apply finalized_position.
Qed.

(** X6. Only the empty input gives no token but the EOF token; on any other
    input the first returned token is at line 1, column 1, even when it
    opens with a line feed. *)
Theorem first_token_at_origin (input : jsstring) (options : option ITokenizerOptions) :
  match withoutEof (tokenizer zero getStringUid input options) with
  | [] => input = []
  | t :: _ => line t = 1 /\ pos t = 1
  end.
Proof.
  unfold tokenizer. rewrite withoutEof_run.
  pose proof (scan_placed (resolve options) input) as (_ & _ & _ & _ & Hfirst).
  pose proof (scan_Inv (resolve options) input) as [HI Hcons].
  set (st := scan zero getStringUid (resolve options) input) in *.
  unfold firstAtOrigin in Hfirst.
  destruct (tokens st) as [|t0 ts] eqn:Htoks; cbn [app]; auto.
  unfold type_is.
  destruct (type (token st)) as [ty|] eqn:Hty.
  - destruct (TokenType_eqb ty Unknown) eqn:Hu.
    + apply TokenType_eqb_eq in Hu. subst ty.
      unfold consumed in Hcons. rewrite Htoks in Hcons. cbn in Hcons.
      rewrite <- Hcons. now apply pending_empty with (v := resolve options).
    + now destruct (finalized_position (resolve options) st) as [-> ->].
  - now destruct (finalized_position (resolve options) st) as [-> ->].
Qed.

Lemma withoutEof_Built (v : ITokenizerValidators) (eof : bool)
    (input : jsstring) :
  Forall
    (fun t => forall ty, type t = Some ty ->
                         Built v (pendingType ty) (text t))
    (withoutEof (run zero getStringUid v eof input)).
Proof.
  rewrite withoutEof_run.
  pose proof (scan_Built v input) as [Hpend Htoks].
  pose proof (scan_Inv v input) as [HI _].
  set (st := scan zero getStringUid v input) in *.
  apply Forall_app. split; auto.
  unfold type_is.
  destruct (type (token st)) as [ty|] eqn:Hty;
    [destruct (TokenType_eqb ty Unknown) eqn:Hu|]; constructor; auto.
  - intros ty' Hty'. rewrite finalized_text.
    pose proof (finalized_baseType HI) as Hb.
    unfold baseType in Hb. rewrite Hty', Hty in Hb. injection Hb as ->.
    apply Hpend; auto. apply pending_nonempty with (v := v); auto.
    rewrite Hty. intros He. injection He as ->. discriminate Hu.
  - destruct HI as [(ty & Hty' & _) _]. congruence.
Qed.

(** X7. Every returned token but the EOF token is built from code units its
    class admits: one that opens the type it was pending with, then code
    units that fit that type, or delimiters that follow a backslash. *)
Theorem tokens_built (input : jsstring) (options : option ITokenizerOptions) :
  Forall
    (fun t => forall ty, type t = Some ty ->
                         Built (resolve options) (pendingType ty) (text t))
    (withoutEof (tokenizer zero getStringUid input options)).
Proof.
  unfold tokenizer. apply withoutEof_Built.
Qed.


(** ** Runs of code units *)

Section RunFacts.

Variable v : ITokenizerValidators.

Lemma accumulate_extend (ty : TokenType) (st : Scan number) (c : char) :
  accumulates ty = true ->
  type (token st) = Some Unknown \/ type (token st) = Some ty ->
  concatIfTypes getStringUid [ty] c
    (pushIfNotTypes zero getStringUid v [Unknown; ty] st) =
  extend getStringUid ty c st.
Proof.
  intros Hacc Hsame. unfold pushIfNotTypes, concatIfTypes, extend.
  destruct ty; try discriminate Hacc; destruct Hsame as [H | H]; rewrite H;
    reflexivity.
Qed.

Lemma accumulate_extend_delimiter (st : Scan number) (c : char) :
  type (token st) = Some Unknown \/ type (token st) = Some String ->
  concatIfTypes getStringUid [String; Unknown] c
    (pushIfNotTypes zero getStringUid v [Unknown; String] st) =
  extend getStringUid String c st.
Proof.
  intros Hsame. unfold pushIfNotTypes, concatIfTypes, extend.
  destruct Hsame as [H | H]; rewrite H; reflexivity.
Qed.

Lemma countLine_type (st : Scan number) (c : char) :
  type (token (countLine c st)) = type (token st).
Proof. unfold countLine. now case_if. Qed.

Lemma type_is_of (st : Scan number) (ty ty' : TokenType) :
  type (token st) = Some ty -> type_is (token st) ty' = TokenType_eqb ty ty'.
Proof. unfold type_is. now intros ->. Qed.

Lemma space_appends (st : Scan number) (c : char) :
  (forall l p, isString v c l p = false) ->
  (forall l p, isSpace v c l p = true) ->
  type (token st) = Some Unknown \/ type (token st) = Some Space ->
  appends zero getStringUid v Space c st.
Proof.
  intros Hq Hsp Hsame. unfold appends, iteration, classify.
  rewrite Hq, Hsp.
  assert (Hs : type_is (token (countLine c st)) String = false).
  { unfold type_is. rewrite countLine_type.
    destruct Hsame as [-> | ->]; reflexivity. }
  rewrite Hs, accumulate_extend; auto. now rewrite countLine_type.
Qed.

Lemma string_appends (st : Scan number) (c : char) :
  (forall l p, isString v c l p = false) ->
  type (token st) = Some String ->
  appends zero getStringUid v String c st.
Proof.
  intros Hq Hs. unfold appends, iteration, classify. rewrite Hq.
  unfold type_is at 1. rewrite countLine_type, Hs. cbn [TokenType_eqb].
  unfold concatIfTypes, extend. now rewrite countLine_type, Hs.
Qed.

Lemma delimiter_opens (st : Scan number) (q : char) :
  (forall l p, isString v q l p = true) ->
  type (token st) = Some Unknown -> text (token st) = [] ->
  appends zero getStringUid v String q st.
Proof.
  intros Hq Hu He. unfold appends, iteration, classify. rewrite Hq.
  destruct (countLine_token st q) as [Htok _]. rewrite Htok, He.
  cbn [endsWith rev startsWith app].
  rewrite accumulate_extend_delimiter by (rewrite countLine_type; auto).
  assert (Hone : text (token (extend getStringUid String q (countLine q st))) = [q]).
  { unfold extend. cbn [with_token token text]. now rewrite Htok, He. }
  rewrite Hone. cbn [length Nat.ltb Nat.leb]. now rewrite andb_false_r.
Qed.

Lemma delimiter_closes (st : Scan number) (q : char) :
  (forall l p, isString v q l p = true) ->
  type (token st) = Some String ->
  startsWith (text (token st)) [q] = true ->
  endsWith (text (token st)) [backslash] = false ->
  let st0 := countLine q st in
  iteration zero getStringUid v st q =
  advance
    (mkScan (cur_line st0) (cur_pos st0)
       (freshToken zero (cur_line st0) (cur_pos st0))
       (tokens st ++
          [mkToken (getStringUid (text (token st) ++ [q])) (Some String)
             (text (token st) ++ [q]) (line (token st)) (pos (token st))])).
Proof.
  intros Hq Hs Hstart Hesc st0. unfold iteration, classify. fold st0.
  rewrite Hq.
  destruct (countLine_token st q) as [Htok Htoks]. fold st0 in Htok, Htoks.
  rewrite Htok, Hesc.
  rewrite accumulate_extend_delimiter by (rewrite Htok; auto).
  assert (Hext : token (extend getStringUid String q st0) =
                 mkToken (getStringUid (text (token st) ++ [q])) (Some String)
                   (text (token st) ++ [q]) (line (token st)) (pos (token st))).
  { unfold extend. cbn [with_token token]. now rewrite Htok. }
  rewrite Hext. cbv [type_is]. cbn [type text TokenType_eqb andb].
  assert (Hclose : (1 <? length (text (token st) ++ [q]))
                   && startsWith (text (token st) ++ [q]) [q]
                   && endsWith (text (token st) ++ [q]) [q] = true).
  { rewrite !andb_true_iff. repeat split.
    - apply Nat.ltb_lt. rewrite length_app. cbn [length].
      destruct (text (token st)); [discriminate Hstart | cbn [length]; lia].
    - destruct (text (token st)) as [|d r]; [discriminate Hstart|].
      cbn [startsWith app] in *. apply andb_prop in Hstart as [Hd _].
      rewrite Hd. now destruct (r ++ [q]).
    - unfold endsWith. rewrite rev_app_distr. cbn [rev app startsWith].
      rewrite N.eqb_refl. now destruct (rev (text (token st))). }
  rewrite Hclose. unfold pushToken, resetToken, finalized, with_token.
  cbv [type_is]. rewrite Hext. cbn [type TokenType_eqb andb text line pos set_uid].
  unfold extend. cbn [with_token cur_line cur_pos tokens]. now rewrite Htoks.
Qed.

(** A run of code units that are each appended to a pending token of type
    [ty] leaves that token pending, grown by the run. *)
Lemma run_appends (ty : TokenType) (r : jsstring) (st : Scan number) :
  type (token st) = Some ty ->
  (forall c, In c r ->
     forall st', type (token st') = Some ty ->
                 appends zero getStringUid v ty c st') ->
  exists l p u,
    scanFrom zero getStringUid v st r =
    mkScan l p
      (mkToken u (Some ty) (text (token st) ++ r)
         (line (token st)) (pos (token st)))
      (tokens st).
Proof.
  revert st. induction r as [|c r IH]; intros st Hty Hall.
  - destruct st as [l p [u oty s tl tp] toks]. cbn in *. subst oty.
    exists l, p, u. now rewrite app_nil_r.
  - cbn [scanFrom fold_left].
    rewrite (Hall c (or_introl eq_refl) st Hty).
    destruct (countLine_token st c) as [Htok Htoks].
    set (st1 := advance (extend getStringUid ty c (countLine c st))).
    destruct (IH st1) as (l & p & u & Hscan).
    + reflexivity.
    + intros d Hd. apply Hall. now right.
    + exists l, p, u. unfold scanFrom in Hscan. rewrite Hscan.
      subst st1. unfold extend.
      cbn [advance with_token token tokens text line pos].
      now rewrite Htok, Htoks, <- app_assoc.
Qed.

(** What is returned when the scan ends with one pending token. *)
Lemma withoutEof_pending (eof : bool) (input : jsstring) (l p : nat)
    (u : number) (ty : TokenType) (s : jsstring) (tl tp : nat)
    (toks : list (IToken number)) :
  scan zero getStringUid v input = mkScan l p (mkToken u (Some ty) s tl tp) toks ->
  ty <> Unknown ->
  withoutEof (run zero getStringUid v eof input) =
    toks ++ [finalized getStringUid v (mkScan l p (mkToken u (Some ty) s tl tp) toks)].
Proof.
  intros Hscan Hk. rewrite withoutEof_run, Hscan. cbv [type_is].
  cbn [token tokens type]. destruct ty; try reflexivity. now elim Hk.
Qed.

(** Pushed tokens stay: the output only grows at its end. *)
Lemma scanFrom_grows (input : jsstring) (st : Scan number) :
  Inv getStringUid v st ->
  exists more,
    tokens (scanFrom zero getStringUid v st input) = tokens st ++ more.
Proof.
  revert st. induction input as [|c input IH]; intros st HI.
  - exists []. cbn. now rewrite app_nil_r.
  - cbn [scanFrom fold_left].
    destruct (iteration_Inv c HI) as [HI' _].
    destruct (IH _ HI') as (more & Hmore). unfold scanFrom in Hmore.
    rewrite Hmore.
    destruct (iteration_transition c HI) as (st' & Ht & Hit).
    destruct (countLine_token st c) as [_ Htoks].
    assert (Hst' : exists m, tokens st' = tokens st ++ m).
    { destruct Ht; cbn [with_token tokens]; rewrite Htoks;
        first [ now exists []; rewrite app_nil_r | eexists; reflexivity ]. }
    destruct Hst' as (m & Hm).
    exists (m ++ more).
    destruct Hit as [-> | ->]; cbn [advance tokens];
      now rewrite Hm, app_assoc.
Qed.

Lemma scan_app (a b : jsstring) :
  scan zero getStringUid v (a ++ b) =
  scanFrom zero getStringUid v (scan zero getStringUid v a) b.
Proof. unfold scan, scanFrom. apply fold_left_app. Qed.

Lemma endsWith_snoc (s : jsstring) (d c : char) :
  endsWith (s ++ [d]) [c] = (d =? c)%N.
Proof.
  unfold endsWith. rewrite rev_app_distr. cbn [rev app startsWith].
  destruct (rev s); now rewrite andb_true_r.
Qed.

(** Inside an open string a code unit that is no delimiter, or that follows
    a backslash, is appended. *)
Lemma string_keeps (st : Scan number) (prev c : char) (s : jsstring) :
  type (token st) = Some String ->
  text (token st) = s ++ [prev] ->
  (forall l p, isString v c l p = false) \/ prev = backslash ->
  exists l p u,
    iteration zero getStringUid v st c =
    mkScan l p
      (mkToken u (Some String) (text (token st) ++ [c])
         (line (token st)) (pos (token st)))
      (tokens st).
Proof.
  intros Hty Htext Hguard.
  destruct (countLine_token st c) as [Htok Htoks].
  destruct (isString v c (cur_line (countLine c st)) (cur_pos (countLine c st)))
    eqn:Hq.
  - destruct Hguard as [Hno | ->]; [now rewrite Hno in Hq|].
    unfold iteration, classify. rewrite Hq, Htok, Htext, endsWith_snoc.
    rewrite N.eqb_refl.
    do 3 eexists. unfold with_token, set_text. rewrite Htoks, Hty.
    reflexivity.
  - assert (Happ : appends zero getStringUid v String c st).
    { unfold appends, iteration, classify. rewrite Hq.
      unfold type_is at 1. rewrite countLine_type, Hty. cbn [TokenType_eqb].
      unfold concatIfTypes, extend. now rewrite countLine_type, Hty. }
    do 3 eexists. rewrite Happ. unfold extend, advance, with_token.
    cbn [cur_line cur_pos token tokens]. rewrite Htok, Htoks.
    reflexivity.
Qed.

Lemma string_run (r : jsstring) (st : Scan number) (prev : char) (s : jsstring) :
  type (token st) = Some String ->
  text (token st) = s ++ [prev] ->
  guarded v prev r ->
  exists l p u,
    scanFrom zero getStringUid v st r =
    mkScan l p
      (mkToken u (Some String) (text (token st) ++ r)
         (line (token st)) (pos (token st)))
      (tokens st).
Proof.
  revert st prev s. induction r as [|c r IH]; intros st prev s Hty Htext Hg.
  - destruct st as [l p [u oty tx tl tp] toks]. cbn in *. subst oty.
    exists l, p, u. now rewrite app_nil_r.
  - destruct Hg as [Hc Hg]. cbn [scanFrom fold_left].
    destruct (@string_keeps st prev c s Hty Htext Hc) as (l1 & p1 & u1 & Hit).
    rewrite Hit.
    destruct (IH (mkScan l1 p1
                    (mkToken u1 (Some String) (text (token st) ++ [c])
                       (line (token st)) (pos (token st)))
                    (tokens st))
                 c (text (token st)) eq_refl eq_refl Hg)
      as (l & p & u & Hscan).
    unfold scanFrom in Hscan. rewrite Hscan. cbn [token tokens text line pos].
    exists l, p, u. now rewrite <- app_assoc.
Qed.

(** The locals once a delimiter and a guarded run are read. *)
Lemma scan_open_string (q : char) (r : jsstring) :
  (forall l p, isString v q l p = true) ->
  guarded v q r ->
  exists l p u,
    scan zero getStringUid v (q :: r) =
    mkScan l p (mkToken u (Some String) (q :: r) 1 1) [].
Proof.
  intros Hq Hg. unfold scan. cbn [scanFrom fold_left].
  rewrite (@delimiter_opens (initial zero) q Hq eq_refl eq_refl).
  destruct (countLine_token (initial zero) q) as [Htok Htoks].
  destruct (@string_run r
              (advance (extend getStringUid String q
                          (countLine q (initial zero))))
              q [])
    as (l & p & u & Hscan); auto.
  - unfold extend. cbn [advance with_token token text]. now rewrite Htok.
  - exists l, p, u. unfold scanFrom in Hscan. rewrite Hscan.
    unfold extend. cbn [advance with_token token tokens text line pos].
    rewrite Htok, Htoks. reflexivity.
Qed.

End RunFacts.

(** X10. Contiguous whitespace merges: an input made only of code units
    that the policy takes for spaces, and never for string delimiters, is
    returned as one [Space] token at line 1, column 1. *)
Theorem whitespace_run_one_token (r : jsstring) (options : option ITokenizerOptions) :
  r <> [] ->
  (forall c, In c r ->
     forall l p, isString (resolve options) c l p = false
                 /\ isSpace (resolve options) c l p = true) ->
  withoutEof (tokenizer zero getStringUid r options) =
    [ mkToken (getStringUid r) (Some Space) r 1 1 ].
Proof.
  intros Hne Hall. destruct r as [|c r]; [now elim Hne|].
  set (v := resolve options).
  assert (Hstep : forall d, In d (c :: r) ->
            forall st, type (token st) = Some Unknown
                       \/ type (token st) = Some Space ->
                       appends zero getStringUid v Space d st).
  { intros d Hd st Hsame.
    apply space_appends; auto; intros l p; now apply Hall. }
  assert (Hcont : forall d, In d r ->
            forall st', type (token st') = Some Space ->
                        appends zero getStringUid v Space d st').
  { intros d Hd st' Hty. apply Hstep; auto. now right. }
  destruct (@run_appends v Space r
              (advance (extend getStringUid Space c
                          (countLine c (initial zero))))
              eq_refl Hcont)
    as (l & p & u & Hscan).
  assert (Hend : scan zero getStringUid v (c :: r) =
                 mkScan l p (mkToken u (Some Space) (c :: r) 1 1) []).
  { unfold scan. cbn [scanFrom fold_left].
    rewrite (Hstep c (or_introl eq_refl) (initial zero) (or_introl eq_refl)).
    unfold scanFrom in Hscan. rewrite Hscan.
    destruct (countLine_token (initial zero) c) as [Htok Htoks].
    unfold extend. cbn [advance with_token token tokens text line pos].
    rewrite Htok, Htoks. reflexivity. }
  unfold tokenizer. fold v.
  rewrite withoutEof_pending with (1 := Hend); [reflexivity|discriminate].
Qed.

(** X11. An unterminated string takes the rest of the input: a delimiter
    followed by code units each of which is no delimiter or follows a
    backslash is returned as one [String] token. *)
Theorem open_string_takes_all (q : char) (r : jsstring)
    (options : option ITokenizerOptions) :
  (forall l p, isString (resolve options) q l p = true) ->
  guarded (resolve options) q r ->
  withoutEof (tokenizer zero getStringUid (q :: r) options) =
    [ mkToken (getStringUid (q :: r)) (Some String) (q :: r) 1 1 ].
Proof.
  intros Hq Hg.
  destruct (scan_open_string (resolve options) q r Hq Hg)
    as (l & p & u & Hend).
  unfold tokenizer.
  rewrite withoutEof_pending with (1 := Hend); [reflexivity|discriminate].
Qed.

(** X12. A string literal at the head of the input is the first token: a
    delimiter, code units each of which is no delimiter or follows a
    backslash and the last of which is no backslash, then the same
    delimiter, are returned as one [String] token whatever follows. *)
Theorem string_literal_first (q : char) (r rest : jsstring)
    (options : option ITokenizerOptions) :
  (forall l p, isString (resolve options) q l p = true) ->
  guarded (resolve options) q r ->
  endsWith (q :: r) [backslash] = false ->
  exists more,
    withoutEof (tokenizer zero getStringUid (q :: r ++ q :: rest) options) =
      mkToken (getStringUid (q :: r ++ [q])) (Some String) (q :: r ++ [q]) 1 1
      :: more.
Proof.
  intros Hq Hg Hesc. set (v := resolve options).
  destruct (scan_open_string v q r Hq Hg) as (l & p & u & Hend).
  assert (Hlit : tokens (scan zero getStringUid v ((q :: r) ++ [q])) =
                 [ mkToken (getStringUid (q :: r ++ [q])) (Some String)
                     (q :: r ++ [q]) 1 1 ]).
  { rewrite scan_app, Hend. cbn [scanFrom fold_left].
    rewrite delimiter_closes; cbn [token type text]; auto.
    cbn [startsWith]. rewrite N.eqb_refl. now destruct r. }
  destruct (scanFrom_grows rest (proj1 (scan_Inv v ((q :: r) ++ [q]))))
    as (more & Hmore).
  rewrite <- scan_app, Hlit, <- app_assoc in Hmore. cbn [app] in Hmore.
  unfold tokenizer. fold v. rewrite withoutEof_run.
  rewrite Hmore. cbn [app]. eexists. reflexivity.
Qed.

(** X13. Reading more input never changes what was already pushed: the
    tokens returned for [a], but the last of them, open the tokens returned
    for [a ++ b]. *)
Theorem tokens_stable (a b : jsstring) (options : option ITokenizerOptions) :
  exists more,
    withoutEof (tokenizer zero getStringUid (a ++ b) options) =
      removelast (withoutEof (tokenizer zero getStringUid a options)) ++ more.
Proof.
  set (v := resolve options). unfold tokenizer. fold v.
  rewrite !withoutEof_run.
  destruct (scanFrom_grows b (proj1 (scan_Inv v a))) as (more & Hmore).
  rewrite <- scan_app in Hmore. rewrite Hmore.
  generalize (tokens (scan zero getStringUid v a)). intros l.
  destruct (type_is (token (scan zero getStringUid v a)) Unknown).
  - rewrite app_nil_r.
    assert (Hl : exists x, l = removelast l ++ x).
    { destruct l as [|t ts]; [now exists []|].
      exists [last (t :: ts) t]. now apply app_removelast_last. }
    destruct Hl as (x & Hl). eexists. rewrite Hl at 1.
    rewrite <- !app_assoc. reflexivity.
  - rewrite removelast_last, <- app_assoc. eexists. reflexivity.
Qed.

(** *** Under the default policy *)

Ltac default_validators H :=
  cbv [opens fits resolve validatorOr isString isSpace isSeparator isNumber
       isCharacter isOperator isNumberSeparator] in H.

Ltac split_classes c :=
  destruct (_isSpace c) eqn:?; destruct (_isSeparator c) eqn:?;
  destruct (_isNumeric c) eqn:?; destruct (_isAlpha c) eqn:?;
  destruct (_isOperator c) eqn:?; destruct (c =? dquote)%N eqn:?;
  destruct (c =? dot)%N eqn:?.

Ltac settle_classes :=
  cbn [negb andb orb] in *; try discriminate; try (split; reflexivity);
  try reflexivity; exfalso; class_facts; unfold dquote, dot in *; lia.

Lemma default_opens (ty : TokenType) (c : char) (l p : nat) :
  accumulates ty = true ->
  opens (resolve None) ty c l p = true ->
  defaultHead ty c = true /\ defaultUnit ty c = true.
Proof.
  intros Hacc H. default_validators H.
  destruct ty; try discriminate Hacc; cbn [defaultHead defaultUnit];
    split_classes c; settle_classes.
Qed.

Lemma default_fits (ty : TokenType) (c : char) (l p : nat) :
  accumulates ty = true ->
  fits (resolve None) ty c l p = true ->
  defaultUnit ty c = true.
Proof.
  intros Hacc H. default_validators H.
  destruct ty; try discriminate Hacc; cbn [defaultUnit];
    split_classes c; settle_classes.
Qed.

Lemma default_escaped (ty : TokenType) (c : char) (l p : nat) :
  defaultUnit ty backslash = true ->
  isString (resolve None) c l p = true ->
  defaultUnit ty c = true.
Proof.
  intros Hb H. default_validators H. apply N.eqb_eq in H. subst c.
  destruct ty; try reflexivity; discriminate Hb.
Qed.

Lemma defaultContent_snoc (ty : TokenType) (s : jsstring) (c : char) :
  defaultContent ty s = true -> defaultUnit ty c = true ->
  defaultContent ty (s ++ [c]) = true.
Proof.
  destruct s as [|d s]; [discriminate|]. cbn [app defaultContent].
  intros H Hc. apply andb_prop in H as [Hd Hs]. rewrite Hd. cbn [andb].
  change (d :: s ++ [c]) with ((d :: s) ++ [c]).
  rewrite forallb_app, Hs. cbn. now rewrite Hc.
Qed.

Lemma Built_default (ty : TokenType) (s : jsstring) :
  accumulates ty = true ->
  Built (resolve None) ty s -> defaultContent ty s = true.
Proof.
  intros Hacc. induction 1 as [c (l & p & Ho) | s c _ IH (l & p & Hf)
                              | s c _ IH Hesc (l & p & Hq)].
  - destruct (default_opens ty c l p Hacc Ho) as [Hh Hu].
    cbn. now rewrite Hh, Hu.
  - apply defaultContent_snoc; auto. eapply default_fits; eauto.
  - apply defaultContent_snoc; auto.
    apply (default_escaped ty c l p); auto.
    apply endsWith_In in Hesc.
    destruct s as [|d s]; [discriminate IH|]. cbn [defaultContent] in IH.
    apply andb_prop in IH as [_ IH].
    now apply (proj1 (forallb_forall _ _) IH).
Qed.

(** X9. Under the default policy a [Space] token holds only spaces, a
    [Separator] only separators that are no spaces, an [Operator] only
    operators, a [Number] a digit followed by digits, letters and dots, an
    [Identifier] no space, separator or operator and no leading digit, and a
    [String] opens with a quotation mark. *)
Theorem default_token_contents (input : jsstring)
    (options : option ITokenizerOptions) :
  resolve options = resolve None ->
  Forall
    (fun t => forall ty, type t = Some ty -> defaultContent ty (text t) = true)
    (withoutEof (tokenizer zero getStringUid input options)).
Proof.
  intros Hdef.
  pose proof (withoutEof_Built (resolve options) (wantsEof options) input) as Hb.
  pose proof (run_Emitted (resolve options) input) as Hem.
  cbv zeta in Hem. unfold tokenizer in *. rewrite withoutEof_run in *.
  rewrite Forall_forall in *. intros t Hin ty Hty.
  destruct (Hem t Hin) as (ty0 & Hty0 & HnU & HnE & _).
  rewrite Hty0 in Hty. injection Hty as <-.
  assert (Hd : defaultContent (pendingType ty0) (text t) = true).
  { apply Built_default; [|rewrite <- Hdef; exact (Hb t Hin ty0 Hty0)].
    destruct ty0; try reflexivity; congruence. }
  destruct ty0; exact Hd.
Qed.

Ltac default_step Hty :=
  unfold appends, iteration, classify;
  cbv [resolve validatorOr isString isSpace isSeparator isNumber isCharacter
       isOperator isNumberSeparator];
  unfold type_is; rewrite !countLine_type, Hty; cbn [TokenType_eqb].

Lemma default_letter_appends (c : char) (st : Scan number) :
  _isAlpha c = true ->
  type (token st) = Some Unknown \/ type (token st) = Some Identifier ->
  appends zero getStringUid (resolve None) Identifier c st.
Proof.
  intros Ha Hsame.
  assert (Hq : (c =? dquote)%N = false) by class_false.
  assert (Hsp : _isSpace c = false) by class_false.
  assert (Hsep : _isSeparator c = false) by class_false.
  assert (Hd : _isNumeric c = false) by class_false.
  destruct Hsame as [Hty | Hty]; default_step Hty;
    rewrite Hq, Hsp, Hsep, Hd, Ha; rewrite accumulate_extend; auto;
    rewrite countLine_type; auto.
Qed.

Lemma default_digit_appends (c : char) (st : Scan number) :
  _isNumeric c = true ->
  type (token st) = Some Unknown \/ type (token st) = Some Number ->
  appends zero getStringUid (resolve None) Number c st.
Proof.
  intros Hd Hsame.
  assert (Hq : (c =? dquote)%N = false) by class_false.
  assert (Hsp : _isSpace c = false) by class_false.
  assert (Hsep : _isSeparator c = false) by class_false.
  destruct Hsame as [Hty | Hty]; default_step Hty;
    rewrite Hq, Hsp, Hsep, Hd; rewrite accumulate_extend; auto;
    rewrite countLine_type; auto.
Qed.

Lemma default_digit_in_identifier (c : char) (st : Scan number) :
  _isNumeric c = true ->
  type (token st) = Some Identifier ->
  appends zero getStringUid (resolve None) Identifier c st.
Proof.
  intros Hd Hty.
  assert (Hq : (c =? dquote)%N = false) by class_false.
  assert (Hsp : _isSpace c = false) by class_false.
  assert (Hsep : _isSeparator c = false) by class_false.
  default_step Hty.
  rewrite Hq, Hsp, Hsep, Hd; rewrite accumulate_extend; auto;
    rewrite countLine_type; auto.
Qed.

Lemma default_letter_in_number (c : char) (st : Scan number) :
  _isAlpha c = true ->
  type (token st) = Some Number ->
  appends zero getStringUid (resolve None) Number c st.
Proof.
  intros Ha Hty.
  assert (Hq : (c =? dquote)%N = false) by class_false.
  assert (Hsp : _isSpace c = false) by class_false.
  assert (Hsep : _isSeparator c = false) by class_false.
  assert (Hd : _isNumeric c = false) by class_false.
  default_step Hty.
  rewrite Hq, Hsp, Hsep, Hd, Ha; rewrite accumulate_extend; auto;
    rewrite countLine_type; auto.
Qed.

Lemma default_dot_in_number (st : Scan number) :
  type (token st) = Some Number ->
  appends zero getStringUid (resolve None) Number dot st.
Proof.
  intros Hty. default_step Hty.
  change ((dot =? dquote)%N) with false.
  change (_isSpace dot) with false. change (_isSeparator dot) with true.
  change ((dot =? dot)%N) with true. cbn [andb].
  rewrite accumulate_extend; auto; rewrite countLine_type; auto.
Qed.

(** X14. Under the default policy a letter followed by letters and digits
    is returned as one [Identifier] token. *)
Theorem default_word_one_token (c : char) (r : jsstring)
    (options : option ITokenizerOptions) :
  resolve options = resolve None ->
  _isAlpha c = true ->
  forallb (fun d => _isAlpha d || _isNumeric d) r = true ->
  withoutEof (tokenizer zero getStringUid (c :: r) options) =
    [ mkToken (getStringUid (c :: r)) (Some Identifier) (c :: r) 1 1 ].
Proof.
  intros Hdef Ha Hr. unfold tokenizer. rewrite Hdef.
  assert (Hcont : forall d, In d r ->
            forall st', type (token st') = Some Identifier ->
                        appends zero getStringUid (resolve None) Identifier d st').
  { intros d Hd st' Hty.
    apply (proj1 (forallb_forall _ _) Hr) in Hd.
    apply orb_prop in Hd as [Hd | Hd].
    - apply default_letter_appends; auto.
    - apply default_digit_in_identifier; auto. }
  destruct (@run_appends (resolve None) Identifier r
              (advance (extend getStringUid Identifier c
                          (countLine c (initial zero))))
              eq_refl Hcont)
    as (l & p & u & Hscan).
  assert (Hend : scan zero getStringUid (resolve None) (c :: r) =
                 mkScan l p (mkToken u (Some Identifier) (c :: r) 1 1) []).
  { unfold scan. cbn [scanFrom fold_left].
    rewrite (@default_letter_appends c (initial zero) Ha (or_introl eq_refl)).
    unfold scanFrom in Hscan. rewrite Hscan.
    destruct (countLine_token (initial zero) c) as [Htok Htoks].
    unfold extend. cbn [advance with_token token tokens text line pos].
    rewrite Htok, Htoks. reflexivity. }
  rewrite withoutEof_pending with (1 := Hend); [reflexivity|discriminate].
Qed.

(** X15. Under the default policy a digit followed by digits, letters and
    dots is returned as one [Number] token. *)
Theorem default_number_one_token (c : char) (r : jsstring)
    (options : option ITokenizerOptions) :
  resolve options = resolve None ->
  _isNumeric c = true ->
  forallb (fun d => _isNumeric d || _isAlpha d || (d =? dot)%N) r = true ->
  withoutEof (tokenizer zero getStringUid (c :: r) options) =
    [ mkToken (getStringUid (c :: r)) (Some Number) (c :: r) 1 1 ].
Proof.
  intros Hdef Hc Hr. unfold tokenizer. rewrite Hdef.
  assert (Hcont : forall d, In d r ->
            forall st', type (token st') = Some Number ->
                        appends zero getStringUid (resolve None) Number d st').
  { intros d Hd st' Hty.
    apply (proj1 (forallb_forall _ _) Hr) in Hd.
    apply orb_prop in Hd as [Hd | Hd]; [apply orb_prop in Hd as [Hd | Hd]|].
    - apply default_digit_appends; auto.
    - apply default_letter_in_number; auto.
    - apply N.eqb_eq in Hd. subst d. apply default_dot_in_number; auto. }
  destruct (@run_appends (resolve None) Number r
              (advance (extend getStringUid Number c
                          (countLine c (initial zero))))
              eq_refl Hcont)
    as (l & p & u & Hscan).
  assert (Hend : scan zero getStringUid (resolve None) (c :: r) =
                 mkScan l p (mkToken u (Some Number) (c :: r) 1 1) []).
  { unfold scan. cbn [scanFrom fold_left].
    rewrite (@default_digit_appends c (initial zero) Hc (or_introl eq_refl)).
    unfold scanFrom in Hscan. rewrite Hscan.
    destruct (countLine_token (initial zero) c) as [Htok Htoks].
    unfold extend. cbn [advance with_token token tokens text line pos].
    rewrite Htok, Htoks. reflexivity. }
  rewrite withoutEof_pending with (1 := Hend); [reflexivity|discriminate].
Qed.

End Facts.

(** ** The scanner on particular inputs *)

Section Examples.

Variable number : Type.
Variable zero : number.
Variable getStringUid : jsstring -> number.

Lemma scanFrom_cons (v : ITokenizerValidators) (st : Scan number)
    (c : char) (s : jsstring) :
  scanFrom zero getStringUid v st (c :: s) =
  scanFrom zero getStringUid v (iteration zero getStringUid v st c) s.
Proof. reflexivity. Qed.

(** Run the next iteration of a scan whose locals are known. *)
Ltac scan_step :=
  rewrite scanFrom_cons;
  match goal with
  | |- context [iteration ?z ?h ?v ?st ?c] =>
      let r := eval cbv in (iteration z h v st c) in
      change (iteration z h v st c) with r
  end.

(** The README's example output, token by token. *)
Example readme_example :
  map summary (tokenizer zero getStringUid readmeText readmeOptions) =
    [ (Some Identifier, str "let", 1, 1);
      (Some Space, str " ", 1, 4);
      (Some Identifier, str "x", 1, 5);
      (Some Space, str " ", 1, 6);
      (Some Identifier, str "=", 1, 7);
      (Some Space, str " ", 1, 8);
      (Some Instruction, str "@print", 1, 9);
      (Some Separator, str "(", 1, 15);
      (Some String, [dquote] ++ str "Hello" ++ [dquote], 1, 16);
      (Some Separator, str ")", 1, 22);
      (Some EOF, [], 0, 0) ].
Proof. vm_compute. reflexivity. Qed.

(** Assertions of the test suite. *)

Example test_separators :
  map shape (tokenizer zero getStringUid (str "(x + y).method()") None) =
    [ (Some Separator, str "("); (Some Identifier, str "x");
      (Some Space, str " "); (Some Operator, str "+"); (Some Space, str " ");
      (Some Identifier, str "y"); (Some Separator, str ").");
      (Some Identifier, str "method"); (Some Separator, str "()") ].
Proof. vm_compute. reflexivity. Qed.

Example test_identifiers_with_numbers :
  map shape (tokenizer zero getStringUid (str "var123 456var var456var") None) =
    [ (Some Identifier, str "var123"); (Some Space, str " ");
      (Some Number, str "456var"); (Some Space, str " ");
      (Some Identifier, str "var456var") ].
Proof. vm_compute. reflexivity. Qed.

Example test_multiline :
  map (fun t => (text t, line t))
    (tokenizer zero getStringUid
       (str "line1" ++ [newline] ++ str "line2" ++ [newline] ++ str "line3")
       None) =
    [ (str "line1", 1); ([newline], 2); (str "line2", 2); ([newline], 3);
      (str "line3", 3) ].
Proof. vm_compute. reflexivity. Qed.

Example test_escaped_quotes :
  let input :=
    [dquote] ++ str "This has \" ++ [dquote] ++ str "quotes\" ++ [dquote]
    ++ str " inside" ++ [dquote] in
  map shape (tokenizer zero getStringUid input None) = [ (Some String, input) ].
Proof. vm_compute. reflexivity. Qed.

Example test_invalid_number_separators :
  firstn 3
    (map shape
       (tokenizer zero getStringUid (str "1..2 1__2 .5 _1")
          (numberSeparatorOnly underscoreOrDot))) =
    [ (Some Number, str "1..2"); (Some Space, str " ");
      (Some Number, str "1__2") ].
Proof. vm_compute. reflexivity. Qed.

(** C7. With [isNumberSeparator] overridden by a validator that accepts the
    underscore and the dot, [1_000.50] is returned as one [Number] token. *)
Theorem number_separator_gating (f : CharacterValidator) :
  (forall l p, f underscore l p = true) ->
  (forall l p, f dot l p = true) ->
  tokenizer zero getStringUid (str "1_000.50") (numberSeparatorOnly f) =
    [ mkToken (getStringUid (str "1_000.50")) (Some Number) (str "1_000.50") 1 1 ].
Proof.
  intros Hu Hd. unfold tokenizer, run, scan.
  change (str "1_000.50") with [49; 95; 48; 48; 48; 46; 53; 48]%N.
  do 8 (scan_step; rewrite ?Hu, ?Hd; cbv beta iota).
  reflexivity.
Qed.

(** C5, as the code has it.  Under the default policy [1_000_000] is split
    once, before the first underscore: the underscore opens an [Identifier]
    that the digits and the second underscore then continue. *)
Theorem default_underscore_tokens :
  tokenizer zero getStringUid (str "1_000_000") None =
    [ mkToken (getStringUid (str "1")) (Some Number) (str "1") 1 1;
      mkToken (getStringUid (str "_000_000")) (Some Identifier)
        (str "_000_000") 1 2 ].
Proof. vm_compute. reflexivity. Qed.

(** C2 on a failing input.  In the six code units of a string that ends in
    an escaped delimiter, a space and an [x], the escaped delimiter at index 2
    leaves the column where it was: index 3 is classified at column 3, and the
    [x] at index 5 is recorded at column 5. *)
Theorem escaped_delimiter_keeps_column :
  let input := [dquote; backslash; dquote; dquote] ++ str " x" in
  let v := resolve None in
  cur_pos (scan zero getStringUid v (firstn 2 input)) = 3
  /\ cur_pos (scan zero getStringUid v (firstn 3 input)) = 3
  /\ map summary (tokenizer zero getStringUid input None) =
       [ (Some String, [dquote; backslash; dquote; dquote], 1, 1);
         (Some Space, str " ", 1, 3);
         (Some Identifier, str "x", 1, 5) ].
Proof. vm_compute. repeat split; reflexivity. Qed.

(** C3 on failing inputs.  The token that follows a closed string keeps the
    column of the closing delimiter: [b], classified at column 4, is recorded
    at column 3.  A first token that opens with a line feed keeps line 1,
    though the line feed is classified on line 2. *)
Theorem token_after_string_position :
  let v := resolve None in
  let quoted := [dquote] ++ str "a" ++ [dquote] ++ str "b" in
  cur_pos (scan zero getStringUid v (firstn 3 quoted)) = 4
  /\ map summary (tokenizer zero getStringUid quoted None) =
       [ (Some String, [dquote] ++ str "a" ++ [dquote], 1, 1);
         (Some Identifier, str "b", 1, 3) ]
  /\ cur_line (countLine newline (scan zero getStringUid v [])) = 2
  /\ map summary (tokenizer zero getStringUid [newline] None) =
       [ (Some Space, [newline], 1, 1) ].
Proof. vm_compute. repeat split; reflexivity. Qed.

(** C4 on a failing input.  A delimiter that follows two backslashes is kept
    as an escaped literal: the string stays open and takes the rest of the
    input. *)
Theorem escaped_backslash_keeps_string_open :
  let input := [dquote] ++ str "a" ++ [backslash; backslash; dquote] ++ str " b" in
  map summary (tokenizer zero getStringUid input None) =
    [ (Some String, input, 1, 1) ].
Proof. vm_compute. reflexivity. Qed.

End Examples.

(** ** Closed instances *)

(** C5 as stated fails: the second token of [1_000_000] runs across an
    underscore. *)
Lemma default_underscore_not_split :
  splitsAtEvery underscore (tokenizer 0%N sampleUid (str "1_000_000") None)
  = false.
Proof. vm_compute. reflexivity. Qed.

Lemma number_separator_gating_witness :
  (forall l p, underscoreOrDot underscore l p = true)
  /\ (forall l p, underscoreOrDot dot l p = true)
  /\ tokenizer 0%N sampleUid (str "1_000.50") (numberSeparatorOnly underscoreOrDot) =
       [ mkToken (sampleUid (str "1_000.50")) (Some Number) (str "1_000.50") 1 1 ].
Proof.
  split; [reflexivity | split; [reflexivity |]].
  apply (number_separator_gating 0%N sampleUid underscoreOrDot); reflexivity.
Defined.

Lemma line_counting_witness :
  nth_error (str "ab" ++ [newline] ++ str "cd") 3 = Some 99%N
  /\ cur_line
       (countLine 99%N
          (scan 0%N sampleUid (resolve None)
             (firstn 3 (str "ab" ++ [newline] ++ str "cd")))) = 2.
Proof.
  split; [reflexivity |].
  apply (line_counting 0%N sampleUid (str "ab" ++ [newline] ++ str "cd") None 3);
    reflexivity.
Defined.

Lemma whitespace_run_one_token_witness :
  [32; 9; 10]%N <> []
  /\ (forall c, In c [32; 9; 10]%N ->
        forall l p, isString (resolve None) c l p = false
                    /\ isSpace (resolve None) c l p = true)
  /\ withoutEof (tokenizer 0%N sampleUid [32; 9; 10]%N None) =
       [ mkToken (sampleUid [32; 9; 10]%N) (Some Space) [32; 9; 10]%N 1 1 ].
Proof.
  assert (H : forall c, In c [32; 9; 10]%N ->
            forall l p, isString (resolve None) c l p = false
                        /\ isSpace (resolve None) c l p = true).
  { intros c [<- | [<- | [<- | []]]] l p; split; reflexivity. }
  split; [discriminate | split; [exact H |]].
  apply (whitespace_run_one_token 0%N sampleUid (r := [32; 9; 10]%N) None);
    [discriminate | exact H].
Defined.

Lemma open_string_takes_all_witness :
  (forall l p, isString (resolve None) dquote l p = true)
  /\ guarded (resolve None) dquote [97; backslash; dquote; 98]%N
  /\ withoutEof
       (tokenizer 0%N sampleUid (dquote :: [97; backslash; dquote; 98]%N) None) =
       [ mkToken (sampleUid (dquote :: [97; backslash; dquote; 98]%N))
           (Some String) (dquote :: [97; backslash; dquote; 98]%N) 1 1 ].
Proof.
  assert (H : guarded (resolve None) dquote [97; backslash; dquote; 98]%N).
  { cbn [guarded]. repeat split; auto. }
  split; [reflexivity | split; [exact H |]].
  apply (@open_string_takes_all N 0%N sampleUid dquote
           [97; backslash; dquote; 98]%N None);
    [reflexivity | exact H].
Defined.

Lemma string_literal_first_witness :
  (forall l p, isString (resolve None) dquote l p = true)
  /\ guarded (resolve None) dquote [97; backslash; dquote; 98]%N
  /\ endsWith (dquote :: [97; backslash; dquote; 98]%N) [backslash] = false
  /\ exists more,
       withoutEof
         (tokenizer 0%N sampleUid
            (dquote :: [97; backslash; dquote; 98]%N ++ dquote :: str " x")
            None) =
         mkToken (sampleUid (dquote :: [97; backslash; dquote; 98]%N ++ [dquote]))
           (Some String) (dquote :: [97; backslash; dquote; 98]%N ++ [dquote])
           1 1
         :: more.
Proof.
  assert (H : guarded (resolve None) dquote [97; backslash; dquote; 98]%N).
  { cbn [guarded]. repeat split; auto. }
  split; [reflexivity | split; [exact H | split; [reflexivity |]]].
  apply (@string_literal_first N 0%N sampleUid dquote
           [97; backslash; dquote; 98]%N (str " x") None);
    [reflexivity | exact H | reflexivity].
Defined.

Lemma default_token_contents_witness :
  resolve (Some (mkOptions (Some noValidators) (Some true))) = resolve None
  /\ Forall
       (fun t : IToken N =>
          forall ty, type t = Some ty -> defaultContent ty (text t) = true)
       (withoutEof
          (tokenizer 0%N sampleUid (str "x1 = 3.14;")
             (Some (mkOptions (Some noValidators) (Some true))))).
Proof.
  split; [reflexivity |].
  apply (@default_token_contents N 0%N sampleUid (str "x1 = 3.14;")
           (Some (mkOptions (Some noValidators) (Some true))));
    reflexivity.
Defined.

Lemma default_word_one_token_witness :
  resolve None = resolve None
  /\ _isAlpha 118%N = true
  /\ forallb (fun d => _isAlpha d || _isNumeric d) (str "ar123") = true
  /\ withoutEof (tokenizer 0%N sampleUid (118%N :: str "ar123") None) =
       [ mkToken (sampleUid (118%N :: str "ar123")) (Some Identifier)
           (118%N :: str "ar123") 1 1 ].
Proof.
  split; [reflexivity | split; [reflexivity | split; [reflexivity |]]].
  apply (@default_word_one_token N 0%N sampleUid 118%N (str "ar123") None);
    reflexivity.
Defined.

Lemma default_number_one_token_witness :
  resolve None = resolve None
  /\ _isNumeric 52%N = true
  /\ forallb (fun d => _isNumeric d || _isAlpha d || (d =? dot)%N)
       (str "56.7e") = true
  /\ withoutEof (tokenizer 0%N sampleUid (52%N :: str "56.7e") None) =
       [ mkToken (sampleUid (52%N :: str "56.7e")) (Some Number)
           (52%N :: str "56.7e") 1 1 ].
Proof.
  split; [reflexivity | split; [reflexivity | split; [reflexivity |]]].
  apply (@default_number_one_token N 0%N sampleUid 52%N (str "56.7e") None);
    reflexivity.
Defined.
